(** * Schema inference and field-map merge of [gateway_generate_docs.py]

    A shallow embedding of the functions that carry the algorithmic content
    of [Python/examples/gateway_generate_docs.py], and of the two functions
    that write their results down:

    - [get_type_string]  (the type classifier),
    - [get_schema]       (the recursive schema inference),
    - [merge]            (the in-place merge of two metadata trees),
    - [get_request_section], [get_table_and_types_section]  (the tables of
      the document).

    Python values are embedded as the inductive type [pyval]; a Python [dict]
    is an association list in insertion order, because both [get_schema] and
    [merge] depend on iteration order.  Exceptions are results of the sum type
    [result]; the in-place mutation performed by [merge] is explicit state
    passing: the function returns both of its arguments as they are left when
    it returns or raises, for two arguments that are separate trees (no
    object is reachable twice).  [get_schema] builds its result from fresh
    objects and only reads its arguments, so it is a function of them. *)

From Stdlib Require Import String Ascii List ZArith Bool.
Import ListNotations.

Open Scope string_scope.
Open Scope list_scope.

(** A lemma of a section depends on the variables its statement names. *)
Set Default Proof Using "Type".

(** ** Python values *)

#[local] Unset Elimination Schemes.

(** The values [json.load] makes of JSON text.  An [int] is unbounded.  A
    [float] is a finite binary number, kept here as mantissa and exponent:
    [PFloat m e] stands for [m * 2^e]; the infinities and NaN, which are no
    JSON numbers, have no constructor.  A [str] is a string; a character
    outside ASCII is held as the bytes of its UTF-8 encoding, so that
    equality, concatenation and the search of one string in another are
    those of Python. *)
Inductive pyval : Type :=
| PNone
| PBool (b : bool)
| PInt (z : Z)
| PFloat (m e : Z)
| PStr (s : string)
| PList (l : list pyval)
| PDict (d : list (string * pyval)).

#[local] Set Elimination Schemes.

(** Induction on values, with the hypothesis for the elements of a list and
    for the values of a dict. *)
Section PyvalInd.
Variable P : pyval -> Prop.
Hypothesis HNone : P PNone.
Hypothesis HBool : forall b, P (PBool b).
Hypothesis HInt : forall z, P (PInt z).
Hypothesis HFloat : forall m e, P (PFloat m e).
Hypothesis HStr : forall s, P (PStr s).
Hypothesis HList : forall l, Forall P l -> P (PList l).
Hypothesis HDict : forall d, Forall (fun kv => P (snd kv)) d -> P (PDict d).

Fixpoint pyval_ind (v : pyval) : P v :=
  match v with
  | PNone => HNone
  | PBool b => HBool b
  | PInt z => HInt z
  | PFloat m e => HFloat m e
  | PStr s => HStr s
  | PList l =>
      HList l
        (list_ind (Forall P) (Forall_nil P)
           (fun u _ IH => Forall_cons u (pyval_ind u) IH) l)
  | PDict d =>
      HDict d
        (list_ind (Forall (fun kv => P (snd kv))) (Forall_nil _)
           (fun kv _ IH => Forall_cons kv (pyval_ind (snd kv)) IH) d)
  end.
End PyvalInd.

(** A [dict] with [str] keys, in insertion order. *)
Definition dict : Type := list (string * pyval).

(** The exceptions the modelled code can raise.  [Exception] is the plain
    [Exception(msg)] that [merge] raises. *)
Inductive exn : Type :=
| UnboundLocalError
| AttributeError
| TypeError
| KeyError
| Exception (msg : string).

Inductive result (A : Type) : Type :=
| Ok (a : A)
| Raise (e : exn).

Arguments Ok {A} a.
Arguments Raise {A} e.

Definition bind {A B : Type} (r : result A) (k : A -> result B) : result B :=
  match r with
  | Ok a => k a
  | Raise e => Raise e
  end.

Notation "x <- r ;; k" := (bind r (fun x => k))
  (at level 61, r at next level, right associativity).

(** ** Dictionaries *)

Section Assoc.
Context {A : Type}.

(** [d.get(k)] / [d[k]] as an option. *)
Fixpoint lookup (k : string) (d : list (string * A)) : option A :=
  match d with
  | [] => None
  | (k', v) :: d' => if String.eqb k k' then Some v else lookup k d'
  end.

(** [k in d]. *)
Definition mem (k : string) (d : list (string * A)) : bool :=
  match lookup k d with
  | Some _ => true
  | None => false
  end.

(** [d[k] = v]: an existing key keeps its position, a new key goes last. *)
Fixpoint dict_set (d : list (string * A)) (k : string) (v : A)
  : list (string * A) :=
  match d with
  | [] => [(k, v)]
  | (k', v') :: d' =>
      if String.eqb k k' then (k', v) :: d' else (k', v') :: dict_set d' k v
  end.

(** [d.update(e)]. *)
Definition dict_update (d e : list (string * A)) : list (string * A) :=
  fold_left (fun acc kv => dict_set acc (fst kv) (snd kv)) e d.

Definition keys (d : list (string * A)) : list string := map fst d.
End Assoc.

(** ** Primitive operations on values *)

Definition is_dict (v : pyval) : bool :=
  match v with PDict _ => true | _ => false end.

Definition is_str (v : pyval) : bool :=
  match v with PStr _ => true | _ => false end.

(** [isinstance(v, (int, float))]: [bool] is a subclass of [int]. *)
Definition isinstance_int_float (v : pyval) : bool :=
  match v with
  | PInt _ | PFloat _ _ | PBool _ => true
  | _ => false
  end.

Definition isinstance_bool (v : pyval) : bool :=
  match v with PBool _ => true | _ => false end.

(** Truth value of a Python object, as tested by [if v:] and [a and b]. *)
Definition truthy (v : pyval) : bool :=
  match v with
  | PNone => false
  | PBool b => b
  | PInt z => negb (Z.eqb z 0)
  | PFloat m _ => negb (Z.eqb m 0)
  | PStr s => negb (String.eqb s "")
  | PList l => match l with [] => false | _ => true end
  | PDict d => match d with [] => false | _ => true end
  end.

(** [v.get(k)]: only a [dict] has the method; a missing key gives [None]. *)
Definition py_get (v : pyval) (k : string) : result pyval :=
  match v with
  | PDict d => Ok (match lookup k d with Some x => x | None => PNone end)
  | _ => Raise AttributeError
  end.

(** [k in item] for a [dict] item. *)
Definition key_in (k : string) (item : pyval) : bool :=
  match item with
  | PDict d => mem k d
  | _ => false
  end.

(** ** [str.capitalize] *)

(** A string of ASCII characters: every byte is below 128. *)
Definition is_ascii_char (c : ascii) : bool := Nat.ltb (nat_of_ascii c) 128.

Fixpoint is_ascii (s : string) : bool :=
  match s with
  | EmptyString => true
  | String c s' => is_ascii_char c && is_ascii s'
  end.

(** The two cases of an ASCII letter. *)
Definition upper_char (c : ascii) : ascii :=
  let n := nat_of_ascii c in
  if Nat.leb 97 n && Nat.leb n 122 then ascii_of_nat (n - 32) else c.

Definition lower_char (c : ascii) : ascii :=
  let n := nat_of_ascii c in
  if Nat.leb 65 n && Nat.leb n 90 then ascii_of_nat (n + 32) else c.

(** [str.lower] on a string of ASCII characters. *)
Fixpoint lower (s : string) : string :=
  match s with
  | EmptyString => EmptyString
  | String c s' => String (lower_char c) (lower s')
  end.

(** [str.capitalize] on a string of ASCII characters: the first character
    in upper case, the others in lower case. *)
Definition ascii_capitalize (s : string) : string :=
  match s with
  | EmptyString => EmptyString
  | String c s' => String (upper_char c) (lower s')
  end.

Section Unicode.
(** On a string with a character outside ASCII, [str.capitalize] applies the
    case mappings of the Unicode database of the interpreter, which are no
    part of the program: [unicode_capitalize] stands for them.  Everything
    below holds whatever they are. *)
Variable unicode_capitalize : string -> string.

Definition capitalize (s : string) : string :=
  if is_ascii s then ascii_capitalize s else unicode_capitalize s.

(** ** [get_type_string] *)

Definition get_type_string (json_value : pyval) : string :=
  if isinstance_int_float json_value then "Number"
  else if isinstance_bool json_value then "Boolean"
  else if is_str json_value then "String"
  else match json_value with
       | PNone => "Null"
       | _ => "Unknown"
       end.

(** ** [get_schema] *)

(** The name [get_schema] gives a nested table when no override applies. *)
Definition default_child_name (table_name json_key : string) : string :=
  (if Nat.ltb 0 (String.length table_name) && negb (String.eqb table_name ".")
   then table_name ++ "."
   else "")
  ++ capitalize json_key.

(** Lines 144-146.  The local [current_table_field_map] is assigned only when
    [field_map] is true; [None] stands for the unassigned local. *)
Definition bind_field_map (field_map : pyval) (table_name : string)
  : result (option pyval) :=
  if truthy field_map
  then v <- py_get field_map table_name ;; Ok (Some v)
  else Ok None.

(** Lines 169-174: the name of the table of an array of objects, as the value
    Python computes; an override may be any true value. *)
Definition list_child_name (current_table_field_map : option pyval)
    (table_name json_key : string) : result pyval :=
  match current_table_field_map with
  | None => Raise UnboundLocalError
  | Some c =>
      if truthy c
      then entry <- py_get c json_key ;;
           value_name <- py_get entry "value_name" ;;
           if truthy value_name then Ok value_name
           else Ok (PStr (default_child_name table_name json_key))
      else Ok (PStr (default_child_name table_name json_key))
  end.

(** An object or a non-empty array that starts with an object: the values
    for which [get_schema] needs the length of its table name. *)
Definition makes_child (v : pyval) : bool :=
  match v with
  | PDict _ => true
  | PList (PDict _ :: _) => true
  | _ => false
  end.

(** What happens when the override [value_name] is true but not a string.
    Every element is passed to [get_schema] under that name: a [list] or
    [dict] name cannot be hashed by [field_map.get]; under another name an
    element that is no object has no [items], and an element that holds an
    object or an array of objects needs [len(table_name)]; when all elements
    pass, the name cannot be concatenated to ['Array of `']. *)
Fixpoint bad_name_exn (items : list pyval) : exn :=
  match items with
  | [] => TypeError
  | PDict d :: items' =>
      if existsb (fun kv => makes_child (snd kv)) d then TypeError
      else bad_name_exn items'
  | _ :: _ => AttributeError
  end.

Definition raise_bad_name (value_name : pyval) (items : list pyval) : exn :=
  match value_name with
  | PList _ | PDict _ => TypeError
  | _ => bad_name_exn items
  end.

(** [new_list_item_value['optional'] = True]. *)
Definition set_optional (v : pyval) : result pyval :=
  match v with
  | PDict d => Ok (PDict (dict_set d "optional" (PBool true)))
  | _ => Raise TypeError
  end.

(** [any(key not in item for item in json_value)]. *)
Definition any_missing (k : string) (items : list pyval) : bool :=
  existsb (fun item => negb (key_in k item)) items.

(** [old_list_items and key not in old_list_items]. *)
Definition missing_in_old (old : option pyval) (k : string) : bool :=
  match old with
  | Some o => truthy o && negb (key_in k o)
  | None => false
  end.

(** Lines 189-193: the loop over the new keys. *)
Fixpoint mark_new (items : list pyval) (old : option pyval) (new_items : dict)
  : result dict :=
  match new_items with
  | [] => Ok []
  | (k, v) :: rest =>
      v' <- (if any_missing k items || missing_in_old old k
             then set_optional v else Ok v) ;;
      rest' <- mark_new items old rest ;;
      Ok ((k, v') :: rest')
  end.

(** Lines 198-202: the loop over the keys of the table already there. *)
Fixpoint mark_old (items : list pyval) (old_items : dict) : result dict :=
  match old_items with
  | [] => Ok []
  | (k, v) :: rest =>
      v' <- (if any_missing k items then set_optional v else Ok v) ;;
      rest' <- mark_old items rest ;;
      Ok ((k, v') :: rest')
  end.

(** The two fields a descriptor is built from. *)
Definition descr_type (t : string) : pyval := PDict [("type", PStr t)].

Definition descr_type_value (t v : string) : pyval :=
  PDict [("type", PStr t); ("value", PStr v)].

Section Walk.
(** The recursive call [get_schema(json_object=., table_name=.,
    field_map=field_map)]. *)
Variable rec : pyval -> string -> result dict.

(** Lines 177-179: the union of the tables of the elements. *)
Fixpoint collect_items (child_table_name : string) (items : list pyval)
    (new_list_items : dict) : result dict :=
  match items with
  | [] => Ok new_list_items
  | list_item :: items' =>
      tables <- rec list_item child_table_name ;;
      match lookup child_table_name tables with
      | None => Raise KeyError
      | Some (PDict table) =>
          collect_items child_table_name items'
            (dict_update new_list_items table)
      | Some _ => Raise TypeError
      end
  end.

(** Lines 176-211, once the name of the table is known. *)
Definition list_of_objects (child_table_name json_key : string)
    (items : list pyval) (st : dict * dict) : result (dict * dict) :=
  let '(current_table_fields, child_tables) := st in
  new_list_items <- collect_items child_table_name items [] ;;
  let old_list_items := lookup child_table_name child_tables in
  new_list_items <- mark_new items old_list_items new_list_items ;;
  child_tables <-
    match old_list_items with
    | Some old =>
        if truthy old then
          match old with
          | PDict old_items =>
              old_items <- mark_old items old_items ;;
              Ok (dict_set child_tables child_table_name
                    (PDict (dict_update old_items new_list_items)))
          | _ => Raise AttributeError
          end
        else Ok (dict_set child_tables child_table_name
                   (PDict new_list_items))
    | None => Ok (dict_set child_tables child_table_name
                    (PDict new_list_items))
    end ;;
  Ok (dict_set current_table_fields json_key
        (descr_type_value "Array(Object)"
           ("Array of `" ++ child_table_name ++ "`")),
      child_tables).

(** The body of the loop of line 149 for one key. *)
Definition visit_key (table_name : string)
    (current_table_field_map : option pyval)
    (st : dict * dict) (kv : string * pyval) : result (dict * dict) :=
  let '(json_key, json_value) := kv in
  let '(current_table_fields, child_tables) := st in
  match json_value with
  | PDict _ =>
      let child_table_name := default_child_name table_name json_key in
      tables <- rec json_value child_table_name ;;
      Ok (dict_set current_table_fields json_key
            (descr_type_value "Object" ("`" ++ child_table_name ++ "`")),
          dict_set child_tables child_table_name (PDict tables))
  | PList items =>
      if makes_child json_value then
        name <- list_child_name current_table_field_map table_name json_key ;;
        match name with
        | PStr child_table_name =>
            list_of_objects child_table_name json_key items st
        | _ => Raise (raise_bad_name name items)
        end
      else
        Ok (dict_set current_table_fields json_key
              (descr_type_value
                 ("Array(" ++ get_type_string json_value ++ ")")
                 ("Array of " ++ get_type_string json_value)),
            child_tables)
  | _ =>
      Ok (dict_set current_table_fields json_key
            (descr_type (get_type_string json_value)),
          child_tables)
  end.

Fixpoint visit_keys (table_name : string)
    (current_table_field_map : option pyval)
    (kvs : dict) (st : dict * dict) : result (dict * dict) :=
  match kvs with
  | [] => Ok st
  | kv :: kvs' =>
      st' <- visit_key table_name current_table_field_map st kv ;;
      visit_keys table_name current_table_field_map kvs' st'
  end.
End Walk.

(** Lines 224-226: the table itself first, then the nested ones. *)
Definition assemble (table_name : string) (st : dict * dict) : dict :=
  dict_update [(table_name, PDict (fst st))] (snd st).

Fixpoint get_schema (field_map : pyval) (json_object : pyval)
    (table_name : string) {struct json_object} : result dict :=
  current_table_field_map <- bind_field_map field_map table_name ;;
  match json_object with
  | PDict kvs =>
      st <- visit_keys (get_schema field_map) table_name
              current_table_field_map kvs ([], []) ;;
      Ok (assemble table_name st)
  | _ => Raise AttributeError
  end.

(** ** [merge] *)

(** The value of a Python number: [m * 2^e], with [True] as 1 and [False]
    as 0. *)
Definition number (v : pyval) : option (Z * Z) :=
  match v with
  | PBool b => Some (if b then 1%Z else 0%Z, 0%Z)
  | PInt z => Some (z, 0%Z)
  | PFloat m e => Some (m, e)
  | _ => None
  end.

Definition number_eq (x y : Z * Z) : bool :=
  let e := Z.min (snd x) (snd y) in
  Z.eqb (fst x * 2 ^ (snd x - e)) (fst y * 2 ^ (snd y - e)).

Section EqLoop.
(** The comparison of the elements, [u == w]. *)
Variable eq : pyval -> pyval -> bool.

(** Two lists are equal when they have the same length and equal elements. *)
Fixpoint list_eq (l l' : list pyval) {struct l} : bool :=
  match l, l' with
  | [], [] => true
  | u :: l1, w :: l1' => eq u w && list_eq l1 l1'
  | _, _ => false
  end.

(** Every item of [d] is in [d'], with an equal value. *)
Fixpoint items_in (d' d : dict) {struct d} : bool :=
  match d with
  | [] => true
  | (k, v) :: d1 =>
      match lookup k d' with
      | Some v' => eq v v'
      | None => false
      end && items_in d' d1
  end.
End EqLoop.

(** Python's [x == y] on the values above: numbers by value across [bool],
    [int] and [float]; lists element by element; two dicts of one size when
    every item of the first is in the second. *)
Fixpoint py_eq (x y : pyval) {struct x} : bool :=
  match x with
  | PNone => match y with PNone => true | _ => false end
  | PStr s => match y with PStr t => String.eqb s t | _ => false end
  | PList l =>
      match y with
      | PList l' => list_eq py_eq l l'
      | _ => false
      end
  | PDict d =>
      match y with
      | PDict d' =>
          Nat.eqb (List.length d) (List.length d') && items_in py_eq d' d
      | _ => false
      end
  | PBool _ | PInt _ | PFloat _ _ =>
      match number x, number y with
      | Some n, Some n' => number_eq n n'
      | _, _ => false
      end
  end.

(** ['Conflict at %s' % '.'.join(path + [str(key)])]. *)
Definition conflict_message (path : list string) (key : string) : string :=
  "Conflict at " ++ String.concat "." (path ++ [key]).

(** The state [merge] leaves behind: the object [a], the object [b] (or
    [b[key]]), and whether the call returned or raised. *)
Definition merged (B : Type) : Type := dict * B * result unit.

Section MergeLoop.
(** The recursive call [merge(a[key], b[key], path + [str(key)])], with
    [b[key]] first. *)
Variable rec : pyval -> dict -> list string -> merged pyval.

(** The body of the loop for one key of [b]; the second component is
    [b[key]] as the iteration leaves it. *)
Definition merge_key (path : list string) (a : dict) (kv : string * pyval)
  : merged pyval :=
  let '(key, bv) := kv in
  match lookup key a with
  | Some av =>
      match av, bv with
      | PDict ad, PDict _ =>
          let '(ad', bv', r) := rec bv ad (path ++ [key]) in
          (dict_set a key (PDict ad'), bv', r)
      | _, _ =>
          if py_eq av bv then (a, bv, Ok tt)
          else
            match av, bv with
            | PDict ad, PStr _ =>
                (dict_set a key (PDict (dict_set ad "description" bv)),
                 bv, Ok tt)
            | PStr _, PDict bd =>
                let bv' := PDict (dict_set bd "description" av) in
                (dict_set a key bv', bv', Ok tt)
            | _, _ =>
                (a, bv, Raise (Exception (conflict_message path key)))
            end
      end
  | None => (dict_set a key bv, bv, Ok tt)
  end.

Fixpoint merge_keys (path : list string) (b : dict) (a : dict)
  : merged dict :=
  match b with
  | [] => (a, [], Ok tt)
  | kv :: rest =>
      let '(a', bv', r) := merge_key path a kv in
      match r with
      | Ok _ =>
          let '(a'', rest', r') := merge_keys path rest a' in
          (a'', (fst kv, bv') :: rest', r')
      | Raise e => (a', (fst kv, bv') :: rest, Raise e)
      end
  end.
End MergeLoop.

(** [merge] with [b] as a value; the loop calls it on a [dict] only. *)
Fixpoint merge_value (b : pyval) (a : dict) (path : list string) {struct b}
  : merged pyval :=
  match b with
  | PDict bd =>
      let '(a', bd', r) := merge_keys merge_value path bd a in
      (a', PDict bd', r)
  | _ => (a, b, Ok tt)
  end.

(** [merge(a, b, path)], for two separate objects [a] and [b]. *)
Definition merge (a b : dict) (path : list string) : merged dict :=
  merge_keys merge_value path b a.

Definition a_after {B : Type} (m : merged B) : dict := fst (fst m).
Definition outcome {B : Type} (m : merged B) : result unit := snd m.

(** ** [get_request_section] *)

(** The line feed and the double quote of the Python literals. *)
Definition nl : string := String (ascii_of_nat 10) EmptyString.
Definition dq : string := String (ascii_of_nat 34) EmptyString.

(** [d[key]] for a [dict]. *)
Definition dict_getitem (d : dict) (key : string) : result pyval :=
  match lookup key d with
  | Some x => Ok x
  | None => Raise KeyError
  end.

(** [s + v]: only a [str] can be added to a [str]. *)
Definition str_add (s : string) (v : pyval) : result string :=
  match v with
  | PStr t => Ok (s ++ t)%string
  | _ => Raise TypeError
  end.

(** [s * n] for an integer [n]: nothing when [n] is not positive. *)
Fixpoint str_repeat (s : string) (n : nat) : string :=
  match n with
  | O => EmptyString
  | S n' => s ++ str_repeat s n'
  end.

(** [key in d and d[key]] for a [dict]. *)
Definition true_at (d : dict) (key : string) : bool :=
  match lookup key d with
  | Some x => truthy x
  | None => false
  end.

(** The values [for x in v] goes through: the elements of a list, the keys
    of a dict, the characters of a str. *)
Definition py_iter (v : pyval) : result (list pyval) :=
  match v with
  | PList l => Ok l
  | PDict d => Ok (map (fun kv => PStr (fst kv)) d)
  | PStr s => Ok (map (fun c => PStr (String c EmptyString))
                    (list_ascii_of_string s))
  | _ => Raise TypeError
  end.

(** Lines 105-117: the four cells of one query item.  Only a [dict] can be
    subscripted with ['name']. *)
Definition request_row (query_item : pyval) : result string :=
  match query_item with
  | PDict d =>
      name <- dict_getitem d "name" ;;
      cell1 <- str_add "|`" name ;;
      type <- dict_getitem d "type" ;;
      cell2 <- str_add "|" type ;;
      value <- (if mem "value" d then dict_getitem d "value"
                else dict_getitem d "type") ;;
      cell3 <- str_add "|" value ;;
      type' <- dict_getitem d "type" ;;
      description <- dict_getitem d "description" ;;
      cell4 <- str_add "|" description ;;
      Ok ((cell1 ++ "` "
             ++ (if true_at d "optional" then "(Optional)" else "") ++ nl)
          ++ (cell2 ++ nl)
          ++ (cell3
                ++ (if py_eq type' (PStr "Boolean")
                    then " (e.g. `0` or `1`)" else "")
                ++ nl)
          ++ (cell4 ++ nl ++ nl))%string
  | _ => Raise TypeError
  end.

(** The loop of line 104 over the items already listed. *)
Fixpoint request_rows (items : list pyval) (text : string) : result string :=
  match items with
  | [] => Ok text
  | query_item :: items' =>
      row <- request_row query_item ;;
      request_rows items' (text ++ row)
  end.

(** The text before the rows: headings, the note on authorisation and the
    head of the table. *)
Definition request_head (auth_required : bool) (file_depth : Z) : string :=
  (nl ++ "== Request" ++ nl ++ nl)
  ++ (if auth_required
      then "As of recent Gateway software versions this request requires a valid `sessionid` cookie obtained by link:"
           ++ str_repeat "../" (Z.to_nat file_depth)
           ++ "Auth/Check_JWT.adoc[Auth/Check_JWT]." ++ nl
      else "")
  ++ (nl ++ "=== Request Querystring" ++ nl ++ nl)
  ++ ("[cols=" ++ dq ++ "1,1,1,2" ++ dq ++ ", options=" ++ dq ++ "header"
        ++ dq ++ "]" ++ nl)
  ++ ("|===" ++ nl)
  ++ ("|Name" ++ nl)
  ++ ("|Type" ++ nl)
  ++ ("|Values" ++ nl)
  ++ ("|Description" ++ nl ++ nl).

Definition get_request_section (request_json : pyval) (auth_required : bool)
    (file_depth : Z) : result string :=
  items <- py_iter request_json ;;
  text <- request_rows items (request_head auth_required file_depth) ;;
  Ok (text ++ "|===" ++ nl)%string.

(** A query item [get_request_section] can render: a mapping with a string
    under [name], [type] and [description], and under [value] when it has
    that key. *)
Definition query_item_ok (query_item : pyval) : bool :=
  match query_item with
  | PDict d =>
      let is_str_at key :=
        match lookup key d with
        | Some x => is_str x
        | None => false
        end in
      is_str_at "name" && is_str_at "type" && is_str_at "description"
      && (if mem "value" d then is_str_at "value" else true)
  | _ => false
  end.

(** ** [get_table_and_types_section] *)

(** [needle in hay] for two strings. *)
Fixpoint is_substring (needle hay : string) : bool :=
  String.prefix needle hay
  || match hay with
     | EmptyString => false
     | String _ hay' => is_substring needle hay'
     end.

(** [s in v] for a string [s]: a key of a dict, a part of a str, an element
    of a list; nothing else can be searched. *)
Definition py_contains (v : pyval) (s : string) : result bool :=
  match v with
  | PDict d => Ok (mem s d)
  | PStr t => Ok (is_substring s t)
  | PList l => Ok (existsb (fun x => py_eq x (PStr s)) l)
  | _ => Raise TypeError
  end.

(** [v[s]] for a string [s]: only a dict is subscripted by a string. *)
Definition py_getitem (v : pyval) (s : string) : result pyval :=
  match v with
  | PDict d => dict_getitem d s
  | _ => Raise TypeError
  end.

(** [s in v and v[s]]. *)
Definition true_member (v : pyval) (s : string) : result bool :=
  found <- py_contains v s ;;
  if found then x <- py_getitem v s ;; Ok (truthy x) else Ok false.

(** The string a value must be to be added to the text. *)
Definition as_str (v : pyval) : result string :=
  match v with
  | PStr t => Ok t
  | _ => Raise TypeError
  end.

(** [len(x) > 0] and then [x[0]]: the first element when there is one. *)
Definition first_of (x : pyval) : result (option pyval) :=
  match x with
  | PList [] | PDict [] | PStr EmptyString => Ok None
  | PList (e :: _) => Ok (Some e)
  | PDict (_ :: _) => Raise KeyError
  | PStr (String c _) => Ok (Some (PStr (String c EmptyString)))
  | _ => Raise TypeError
  end.

(** Lines 251-254. *)
Definition field_type_of (field_metadata : pyval) : pyval :=
  match field_metadata with
  | PDict d =>
      match lookup "type" d with
      | Some t => t
      | None => PStr "Unknown"
      end
  | _ => PStr "Unknown"
  end.

(** [field_metadata.get('value_name')] where the code reads it: the type is
    ['String'], so the metadata is a dict. *)
Definition value_name_of (field_metadata : pyval) : pyval :=
  match field_metadata with
  | PDict d =>
      match lookup "value_name" d with
      | Some x => x
      | None => PNone
      end
  | _ => PNone
  end.

(** Lines 258-276: the cell of the values. *)
Definition value_cell (type_map field_metadata : pyval) (field_type : string)
  : result string :=
  if key_in "value" field_metadata then
    value <- py_getitem field_metadata "value" ;; as_str value
  else if String.eqb field_type "String"
          && truthy (value_name_of field_metadata) then
    value_name <- as_str (value_name_of field_metadata) ;;
    found <- py_contains type_map value_name ;;
    if found then
      custom_type <- py_getitem type_map value_name ;;
      first <- first_of custom_type ;;
      match first with
      | Some example =>
          value <- py_getitem example "value" ;;
          value <- as_str value ;;
          Ok ("`" ++ value_name ++ "`" ++ " (e.g. `" ++ value ++ "`)")%string
      | None => Ok ("`" ++ value_name ++ "`")%string
      end
    else Ok ("`" ++ value_name ++ "`")%string
  else
    Ok (field_type
          ++ (if String.eqb field_type "Number"
                 && py_eq (match field_metadata with
                           | PDict d =>
                               match lookup "allow_negative" d with
                               | Some x => x
                               | None => PNone
                               end
                           | _ => PNone
                           end) (PBool false)
              then " (> 0)" else ""))%string.

(** Lines 279-297: the cell of the description, and the custom type it
    uses. *)
Definition description_cell (field_metadata : pyval) (field_type : string)
  : result (string * list string) :=
  found <- py_contains field_metadata "description" ;;
  if found then
    description <- py_getitem field_metadata "description" ;;
    description <- as_str description ;;
    if String.eqb field_type "String"
       && truthy (value_name_of field_metadata) then
      value_name <- as_str (value_name_of field_metadata) ;;
      Ok ((description ++ " In the format `" ++ value_name ++ "`.")%string,
          [value_name])
    else Ok (description, [])
  else Ok ("???", []).

(** Lines 246-297 for one field. *)
Definition table_row (type_map : pyval) (field : string * pyval)
  : result (string * list string) :=
  let '(field_name, field_metadata) := field in
  optional <- true_member field_metadata "optional" ;;
  field_type <- as_str (field_type_of field_metadata) ;;
  values <- value_cell type_map field_metadata field_type ;;
  described <- description_cell field_metadata field_type ;;
  Ok (("|`" ++ field_name ++ "`"
         ++ (if optional then " (Optional)" else "") ++ nl
       ++ "|" ++ field_type ++ nl
       ++ "|" ++ values ++ nl
       ++ "|" ++ fst described ++ nl ++ nl)%string,
      snd described).

(** The loop over the fields: the text, and the custom types added to
    [used_custom_types], in the order they are added. *)
Fixpoint table_rows (type_map : pyval) (fields : dict)
    (st : string * list string) : result (string * list string) :=
  match fields with
  | [] => Ok st
  | field :: fields' =>
      row <- table_row type_map field ;;
      table_rows type_map fields'
        ((fst st ++ fst row)%string, snd st ++ snd row)
  end.

(** Lines 320-326: one value of a custom type. *)
Definition custom_type_row (current_field : pyval) : result string :=
  value <- py_getitem current_field "value" ;;
  value <- as_str value ;;
  uncertain <- py_contains current_field "uncertain" ;;
  name <- py_getitem current_field "name" ;;
  name <- as_str name ;;
  description <- py_getitem current_field "description" ;;
  description <- as_str description ;;
  Ok ("|`" ++ value ++ "`" ++ (if uncertain then "?" else "") ++ nl
      ++ "|" ++ name ++ nl
      ++ "|" ++ description ++ nl ++ nl)%string.

Fixpoint custom_type_rows (current_fields : list pyval) (text : string)
  : result string :=
  match current_fields with
  | [] => Ok text
  | current_field :: rest =>
      row <- custom_type_row current_field ;;
      custom_type_rows rest (text ++ row)
  end.

(** Lines 304-329, for a [type_map] that is true. *)
Fixpoint custom_type_sections (type_map : pyval)
    (used_custom_types : list string) (text : string) : result string :=
  match used_custom_types with
  | [] => Ok text
  | used_custom_type :: rest =>
      custom_type <- py_get type_map used_custom_type ;;
      text <-
        (if truthy custom_type then
           current_fields <- py_iter custom_type ;;
           text <- custom_type_rows current_fields
                     (text ++ nl ++ "=== `" ++ used_custom_type ++ "` Types"
                        ++ nl ++ nl
                        ++ "[cols=" ++ dq ++ "1,1,2" ++ dq ++ ", options="
                        ++ dq ++ "header" ++ dq ++ "]" ++ nl
                        ++ "|===" ++ nl
                        ++ "|Value" ++ nl
                        ++ "|Name" ++ nl
                        ++ "|Description" ++ nl ++ nl) ;;
           Ok (text ++ "|===" ++ nl)%string
         else Ok text) ;;
      custom_type_sections type_map rest text
  end.

(** Lines 231-240: the heading and the head of the table. *)
Definition table_head (table_name : string) : string :=
  (nl ++ "=== "
     ++ (if Nat.ltb 0 (String.length table_name)
            && negb (String.eqb table_name ".")
         then "`" ++ table_name ++ "` Object" else "Root")
     ++ nl ++ nl)
  ++ ("[cols=" ++ dq ++ "1,1,1,2" ++ dq ++ ", options=" ++ dq ++ "header"
        ++ dq ++ "]" ++ nl)
  ++ ("|===" ++ nl)
  ++ ("|Name" ++ nl)
  ++ ("|Type" ++ nl)
  ++ ("|Values" ++ nl)
  ++ ("|Description" ++ nl ++ nl).

(** [used_custom_types] is a Python set, which is gone through in an order
    the code does not fix: [set_order] stands for that order, and gives the
    names of the list it is applied to, each once. *)
Definition get_table_and_types_section (set_order : list string -> list string)
    (table_name : string) (table type_map : pyval) : result string :=
  match table with
  | PDict fields =>
      st <- table_rows type_map fields (table_head table_name, []) ;;
      let text := (fst st ++ "|===" ++ nl)%string in
      if truthy type_map
      then custom_type_sections type_map (set_order (snd st)) text
      else Ok text
  | _ => Raise AttributeError
  end.

(** A field [get_table_and_types_section] renders whatever the type map: a
    mapping with a string as its type, no [value_name], and strings under
    [value] and [description] when it has these keys. *)
Definition plain_field (field_metadata : pyval) : bool :=
  match field_metadata with
  | PDict d =>
      let str_or_absent key :=
        match lookup key d with
        | Some x => is_str x
        | None => true
        end in
      mem "type" d && str_or_absent "type"
      && str_or_absent "value" && str_or_absent "description"
      && negb (mem "value_name" d)
  | _ => false
  end.

(** ** Vocabulary of the properties *)

Fixpoint distinct (l : list string) : bool :=
  match l with
  | [] => true
  | k :: l' => negb (existsb (String.eqb k) l') && distinct l'
  end.

(** A value as Python can hold it: the keys of every [dict] are distinct. *)
Fixpoint well_formed (v : pyval) : bool :=
  match v with
  | PList l => forallb well_formed l
  | PDict d => distinct (keys d) && forallb (fun kv => well_formed (snd kv)) d
  | _ => true
  end.

(** The value a tree holds at a dotted path. *)
Fixpoint get_path (d : dict) (p : list string) : option pyval :=
  match p with
  | [] => None
  | k :: p' =>
      match lookup k d with
      | None => None
      | Some v =>
          match p' with
          | [] => Some v
          | _ :: _ =>
              match v with
              | PDict d' => get_path d' p'
              | _ => None
              end
          end
      end
  end.

(** Two values under one key that [merge] cannot reconcile: not two
    mappings, not equal, and not a mapping facing a string. *)
Definition clash (av bv : pyval) : bool :=
  negb (is_dict av && is_dict bv)
  && negb (py_eq av bv)
  && negb (is_dict av && is_str bv)
  && negb (is_str av && is_dict bv).

(** The six ways one key of [b] is handled, read off [merge_key]. *)
Inductive merge_step (rec : pyval -> dict -> list string -> merged pyval)
    (path : list string) (a : dict) (key : string) (bv : pyval)
  : merged pyval -> Prop :=
| step_copy :
    lookup key a = None ->
    merge_step rec path a key bv (dict_set a key bv, bv, Ok tt)
| step_recurse ad bd ad' bv' r :
    lookup key a = Some (PDict ad) -> bv = PDict bd ->
    rec bv ad (path ++ [key]) = (ad', bv', r) ->
    merge_step rec path a key bv (dict_set a key (PDict ad'), bv', r)
| step_same av :
    lookup key a = Some av -> is_dict av && is_dict bv = false ->
    py_eq av bv = true ->
    merge_step rec path a key bv (a, bv, Ok tt)
| step_describe_a ad s :
    lookup key a = Some (PDict ad) -> bv = PStr s ->
    merge_step rec path a key bv
      (dict_set a key (PDict (dict_set ad "description" bv)), bv, Ok tt)
| step_describe_b s bd :
    lookup key a = Some (PStr s) -> bv = PDict bd ->
    merge_step rec path a key bv
      (dict_set a key (PDict (dict_set bd "description" (PStr s))),
       PDict (dict_set bd "description" (PStr s)), Ok tt)
| step_conflict av :
    lookup key a = Some av -> clash av bv = true ->
    merge_step rec path a key bv
      (a, bv, Raise (Exception (conflict_message path key))).

(** The exception names a path at which the two trees hold values that
    [merge] cannot reconcile. *)
Definition conflict_at (a b : dict) (path : list string) (e : exn) : Prop :=
  exists q av bv,
    get_path a q = Some av /\ get_path b q = Some bv
    /\ clash av bv = true
    /\ e = Exception ("Conflict at " ++ String.concat "." (path ++ q)).

(** A value of a tree that is no mapping, at its dotted path. *)
Definition leaf (d : dict) (p : list string) (v : pyval) : Prop :=
  get_path d p = Some v /\ is_dict v = false.

(** The tree [d] keeps the leaf [v] of path [p]: at [p] (the same value, or
    one that [==] finds equal), or as the description of the mapping at
    [p]. *)
Definition kept (d : dict) (p : list string) (v : pyval) : Prop :=
  (exists v', leaf d p v' /\ (v' = v \/ py_eq v' v = true))
  \/ leaf d (p ++ ["description"]) v.

Section FreeLoop.
Variable rec : pyval -> pyval -> bool.

Definition free_items (ad bd : dict) : bool :=
  forallb (fun kv =>
             match lookup (fst kv) ad with
             | Some x => rec (snd kv) x
             | None => true
             end) bd.
End FreeLoop.

(** No mapping that [merge] would give a string as its description has
    a [description] already; [bv] is the value of [b], [av] the one of [a]
    under the same key. *)
Fixpoint description_free (bv av : pyval) {struct bv} : bool :=
  match bv with
  | PDict bd =>
      match av with
      | PDict ad => free_items description_free ad bd
      | PStr _ => negb (mem "description" bd)
      | _ => true
      end
  | PStr _ =>
      match av with
      | PDict ad => negb (mem "description" ad)
      | _ => true
      end
  | _ => true
  end.

(** The field descriptor carries [optional: true]. *)
Definition has_optional (descr : pyval) : bool :=
  match descr with
  | PDict f =>
      match lookup "optional" f with
      | Some (PBool true) => true
      | _ => false
      end
  | _ => false
  end.

(** The table name a key of an object contributes: the name of a nested
    object, or of an array of objects. *)
Definition child_name_of (current_table_field_map : option pyval)
    (table_name : string) (kv : string * pyval) : option string :=
  match snd kv with
  | PDict _ => Some (default_child_name table_name (fst kv))
  | PList _ =>
      if makes_child (snd kv) then
        match list_child_name current_table_field_map table_name (fst kv) with
        | Ok (PStr n) => Some n
        | _ => None
        end
      else None
  | _ => None
  end.

(** A field descriptor as [get_schema] first builds it: a mapping without
    the key [optional]. *)
Definition fresh_descr (descr : pyval) : bool :=
  match descr with
  | PDict f => negb (mem "optional" f)
  | _ => false
  end.

(** The name [get_schema] gives the table of the array of objects under
    [json_key], in the object it reads as the table [table_name]. *)
Definition table_name_of (field_map : pyval) (table_name json_key : string)
  : result pyval :=
  current_table_field_map <- bind_field_map field_map table_name ;;
  list_child_name current_table_field_map table_name json_key.

(** Some key of the object [obj], read as the table [table_name],
    contributes a table called [name]. *)
Definition names_child (field_map : pyval) (table_name name : string)
    (obj : pyval) : bool :=
  match bind_field_map field_map table_name, obj with
  | Ok current_table_field_map, PDict d =>
      existsb (fun kv =>
                 match child_name_of current_table_field_map table_name kv with
                 | Some n => String.eqb n name
                 | None => false
                 end) d
  | _, _ => false
  end.

(** An object without nested objects and without arrays of objects. *)
Definition flat_object (v : pyval) : bool :=
  match v with
  | PDict d => forallb (fun kv => negb (makes_child (snd kv))) d
  | _ => false
  end.

(** The second argument of [merge] as the call leaves it. *)
Definition b_after {B : Type} (m : merged B) : B := snd (fst m).


(** Some array of objects is reached from [v] through nested objects. *)
Fixpoint has_object_array (v : pyval) : bool :=
  match v with
  | PDict d =>
      existsb (fun kv =>
                 match snd kv with
                 | PDict _ => has_object_array (snd kv)
                 | PList _ => makes_child (snd kv)
                 | _ => false
                 end) d
  | _ => false
  end.

(** The descriptor [get_schema] records for a key of the object it reads as
    the table [table_name] (lines 160, 211, 216 and 221). *)
Definition field_descriptor (current_table_field_map : option pyval)
    (table_name : string) (kv : string * pyval) : pyval :=
  match snd kv with
  | PDict _ =>
      descr_type_value "Object"
        ("`" ++ default_child_name table_name (fst kv) ++ "`")
  | PList _ =>
      if makes_child (snd kv) then
        match child_name_of current_table_field_map table_name kv with
        | Some name =>
            descr_type_value "Array(Object)" ("Array of `" ++ name ++ "`")
        | None => PNone
        end
      else
        descr_type_value ("Array(" ++ get_type_string (snd kv) ++ ")")
          ("Array of " ++ get_type_string (snd kv))
  | _ => descr_type (get_type_string (snd kv))
  end.

(** The exceptions [get_schema] raises. *)
Definition schema_exn (e : exn) : Prop :=
  e = UnboundLocalError \/ e = AttributeError \/ e = TypeError.

(** The inputs of the examples. *)

(** [{"items":[{"id":1,"name":"x"},{"id":2}]}] *)
Definition items_example : pyval :=
  PDict [("items",
          PList [PDict [("id", PInt 1); ("name", PStr "x")];
                 PDict [("id", PInt 2)]])].

(** The schema [get_schema] infers from [items_example] when it returns. *)
Definition items_schema : dict :=
  [(".", PDict [("items", descr_type_value "Array(Object)" "Array of `Items`")]);
   ("Items",
    PDict [("id", descr_type "Number");
           ("name", PDict [("type", PStr "String"); ("optional", PBool true)])])].

(** [{"p":[{"a":1,"b":2},{"a":1}],"s":[{"a":1,"b":3}]}] *)
Definition lines_p : list pyval :=
  [PDict [("a", PInt 1); ("b", PInt 2)]; PDict [("a", PInt 1)]].

Definition lines_example : pyval :=
  PDict [("p", PList lines_p);
         ("s", PList [PDict [("a", PInt 1); ("b", PInt 3)]])].

(** [{".": {"p": {"value_name": "Line"}, "s": {"value_name": "Line"}}}] *)
Definition lines_field_map : pyval :=
  PDict [(".", PDict [("p", PDict [("value_name", PStr "Line")]);
                      ("s", PDict [("value_name", PStr "Line")])])].

(** The keys of the examples are ASCII, so that [unicode_capitalize] is not
    consulted on them; where one must be named, it is this one. *)
Definition no_case_mapping (s : string) : string := s.

(** * Properties *)

(** ** The type classifier *)

Lemma get_type_string_labels (v : pyval) :
  In (get_type_string v) ["Number"; "Boolean"; "String"; "Null"; "Unknown"].
Proof.
  destruct v; simpl; auto 6.
Qed.

Lemma get_type_string_list (l : list pyval) :
  get_type_string (PList l) = "Unknown".
Proof. reflexivity. Qed.

(** C1.  The classifier tests [isinstance(v, (int, float))] before
    [isinstance(v, bool)], and a Python [bool] is an [int]: on both booleans
    it answers [Number], so the [Boolean] branch is never taken. *)
Theorem get_type_string_bool_is_number :
  forall b : bool, get_type_string (PBool b) = "Number".
Proof.
  intros b. reflexivity.
Qed.

(** ** Schema inference on the examples *)

Lemma get_schema_dict (field_map : pyval) (kvs : dict) (table_name : string) :
  get_schema field_map (PDict kvs) table_name
  = (current_table_field_map <- bind_field_map field_map table_name ;;
     st <- visit_keys (get_schema field_map) table_name
             current_table_field_map kvs ([], []) ;;
     Ok (assemble table_name st)).
Proof. reflexivity. Qed.

(** C2.  For the object [{"a": {"b": 1}}] the entry of the nested table [A]
    is the whole schema tree of the nested object, [{"A": {"b": ...}}], not
    the table of its fields. *)
Theorem get_schema_nested_object_not_flat :
  get_schema PNone (PDict [("a", PDict [("b", PInt 1)])]) "."
  = Ok [(".", PDict [("a", descr_type_value "Object" "`A`")]);
        ("A", PDict [("A", PDict [("b", descr_type "Number")])])].
Proof.
  vm_compute. reflexivity.
Qed.

(** An array that does not start with an object gets the label of the array
    itself, whatever its elements are. *)
Lemma visit_key_scalar_array rec tn cfm ctf ct k l :
  makes_child (PList l) = false ->
  visit_key rec tn cfm (ctf, ct) (k, PList l)
  = Ok (dict_set ctf k (descr_type_value "Array(Unknown)" "Array of Unknown"),
        ct).
Proof.
  intros H. unfold visit_key. now rewrite H.
Qed.

(** C3.  The array itself, not its first element, is classified: the field
    of [{"xs": [1, 2]}] gets the type [Array(Unknown)]. *)
Theorem get_schema_scalar_array_unknown :
  get_schema PNone (PDict [("xs", PList [PInt 1; PInt 2])]) "."
  = Ok [(".", PDict [("xs", descr_type_value "Array(Unknown)"
                              "Array of Unknown")])].
Proof.
  vm_compute. reflexivity.
Qed.

(** C4.  The flag of an array of objects does not survive a later array
    that shares its table.  In [lines_example], with both arrays named
    [Line] by the field map, the key [b] is absent from the second element
    of the array [p], which is the first to give the table [Line]; the
    descriptors of the array [s] then replace those of [p] (line 205), and
    the field [b] of [Line] carries no [optional]. *)
Theorem get_schema_later_array_drops_optional :
  any_missing "b" lines_p = true
  /\ get_schema lines_field_map lines_example "."
     = Ok [(".", PDict [("p", descr_type_value "Array(Object)"
                                "Array of `Line`");
                        ("s", descr_type_value "Array(Object)"
                                "Array of `Line`")]);
           ("Line", PDict [("a", descr_type "Number");
                           ("b", descr_type "Number")])].
Proof.
  split; vm_compute; reflexivity.
Qed.

(** C5.  Run without a field map on [items_example], [get_schema] raises
    [UnboundLocalError] and gives no table: the array of objects reads the
    local [current_table_field_map], which is assigned only when there is a
    field map. *)
Theorem get_schema_items_no_field_map :
  get_schema PNone items_example "." = Raise UnboundLocalError.
Proof.
  vm_compute. reflexivity.
Qed.

(** With a field map that is not empty and says nothing about the root
    table, the example gives the root table [.] with the field [items] of
    type [Array(Object)] referring to the table [Items] -- directly under
    the root the prefix of the parent is left out (lines 154 and 174) --
    and the table [Items] with [id] a [Number] and [name] an optional
    [String]. *)
Lemma get_schema_items_example :
  forall field_map : pyval,
    truthy field_map = true ->
    py_get field_map "." = Ok PNone ->
    get_schema field_map items_example "." = Ok items_schema.
Proof.
  intros field_map Ht Hg.
  destruct field_map as [| | | | | |d]; try discriminate Hg.
  unfold items_example. rewrite get_schema_dict.
  unfold bind_field_map. rewrite Ht, Hg. cbn [bind].
  destruct d as [|kv d]; [discriminate Ht |].
  vm_compute. reflexivity.
Qed.


(** C6.  [get_schema] raises on well-formed input: without a field map the
    local [current_table_field_map] is never assigned and the first array of
    objects reads it; with a field map whose table has no entry for the key,
    [.get(json_key)] is [None], which has no [get]. *)
Theorem get_schema_raises :
  get_schema PNone (PDict [("items", PList [PDict [("id", PInt 1)]])]) "."
  = Raise UnboundLocalError
  /\ get_schema (PDict [(".", PDict [("other", PDict [])])])
       (PDict [("items", PList [PDict [("id", PInt 1)]])]) "."
     = Raise AttributeError.
Proof.
  split; vm_compute; reflexivity.
Qed.

(** ** Merge on the examples *)

Lemma merge_conflict_example :
  merge [("a", PInt 2)] [("a", PInt 1)] []
  = ([("a", PInt 2)], [("a", PInt 1)], Raise (Exception "Conflict at a")).
Proof.
  vm_compute. reflexivity.
Qed.

Lemma merge_shorthand_example :
  a_after (merge [("a", PStr "An example field")]
             [("a", PDict [("type", PStr "Number")])] [])
  = [("a", PDict [("type", PStr "Number");
                  ("description", PStr "An example field")])].
Proof.
  vm_compute. reflexivity.
Qed.

(** C10.  [merge] is not atomic: merging [{"n": 5, "a": 2}] into [{"a": 1}]
    raises the conflict at [a] after the key [n] was copied into the first
    tree, which is left different from what it was. *)
Theorem merge_not_atomic :
  exists a b : dict,
    outcome (merge a b []) = Raise (Exception "Conflict at a")
    /\ a_after (merge a b []) = a ++ [("n", PInt 5)]
    /\ a_after (merge a b []) <> a.
Proof.
  exists [("a", PInt 1)], [("n", PInt 5); ("a", PInt 2)].
  split; [vm_compute; reflexivity |].
  split; [vm_compute; reflexivity |].
  vm_compute. discriminate.
Qed.

(** ** Facts about dictionaries *)

Section AssocFacts.
Context {A : Type}.
Implicit Types (d e : list (string * A)) (k : string) (v : A).

Lemma lookup_dict_set_same d k v : lookup k (dict_set d k v) = Some v.
Proof.
  induction d as [|[k' v'] d IH]; simpl.
  - now rewrite String.eqb_refl.
  - destruct (String.eqb k k') eqn:E; simpl; rewrite E; auto.
Qed.

Lemma lookup_dict_set_other d k k' v :
  k <> k' -> lookup k (dict_set d k' v) = lookup k d.
Proof.
  intros Hne. apply String.eqb_neq in Hne.
  induction d as [|[k1 v1] d IH]; simpl.
  - now rewrite Hne.
  - destruct (String.eqb k' k1) eqn:E; simpl.
    + apply String.eqb_eq in E. subst k1. now rewrite Hne.
    + now rewrite IH.
Qed.

Lemma dict_set_lookup_id d k v : lookup k d = Some v -> dict_set d k v = d.
Proof.
  induction d as [|[k' v'] d IH]; simpl; [discriminate |].
  destruct (String.eqb k k') eqn:E; intros H.
  - now inversion H.
  - now rewrite IH.
Qed.

Lemma lookup_In d k v : lookup k d = Some v -> In (k, v) d.
Proof.
  induction d as [|[k' v'] d IH]; simpl; [discriminate |].
  destruct (String.eqb k k') eqn:E; intros H.
  - apply String.eqb_eq in E. inversion H. subst. now left.
  - right. auto.
Qed.

Lemma lookup_None_keys d k : lookup k d = None <-> ~ In k (keys d).
Proof.
  induction d as [|[k' v'] d IH]; simpl.
  - split; [intros _ [] | reflexivity].
  - destruct (String.eqb_spec k k') as [->|Hne].
    + split; [discriminate | intros H; exfalso; apply H; now left].
    + rewrite IH. split; intros H.
      * intros [E|E]; [congruence | exact (H E)].
      * intros E. apply H. now right.
Qed.

Lemma existsb_eqb_In k (l : list string) :
  existsb (String.eqb k) l = true <-> In k l.
Proof.
  rewrite existsb_exists. split.
  - intros [x [Hin E]]. apply String.eqb_eq in E. now subst.
  - intros Hin. exists k. split; [assumption | apply String.eqb_refl].
Qed.

Lemma distinct_cons k (l : list string) :
  distinct (k :: l) = true <-> ~ In k l /\ distinct l = true.
Proof.
  simpl. rewrite andb_true_iff, negb_true_iff.
  rewrite <- (existsb_eqb_In k l).
  destruct (existsb (String.eqb k) l); split; intros [H1 H2]; split;
    try assumption; try discriminate; try reflexivity.
  exfalso. now apply H1.
Qed.

Lemma distinct_In_lookup d k v :
  distinct (keys d) = true -> In (k, v) d -> lookup k d = Some v.
Proof.
  induction d as [|[k' v'] d IH]; simpl keys; [intros _ [] |].
  intros Hd Hin. apply distinct_cons in Hd. destruct Hd as [Hnot Hd].
  simpl. destruct Hin as [E|Hin].
  - inversion E. subst. now rewrite String.eqb_refl.
  - destruct (String.eqb_spec k k') as [->|Hne]; [| auto].
    exfalso. apply Hnot. change (In (fst (k', v)) (map fst d)).
    now apply in_map.
Qed.

Lemma mem_dict_set d k k' v :
  mem k (dict_set d k' v) = String.eqb k k' || mem k d.
Proof.
  unfold mem. destruct (String.eqb_spec k k') as [->|Hne].
  - now rewrite lookup_dict_set_same.
  - now rewrite lookup_dict_set_other.
Qed.
End AssocFacts.

(** ** Equality of values *)

Lemma number_eq_refl (n : Z * Z) : number_eq n n = true.
Proof. unfold number_eq. apply Z.eqb_refl. Qed.

Lemma list_eq_refl (l : list pyval) :
  Forall (fun v => well_formed v = true -> py_eq v v = true) l ->
  forallb well_formed l = true ->
  list_eq py_eq l l = true.
Proof.
  induction 1 as [|u l Hu _ IH]; simpl; [reflexivity |].
  rewrite andb_true_iff. intros [Hw Hl]. rewrite Hu, IH; auto.
Qed.

Lemma items_in_refl (d' d : dict) :
  Forall (fun kv => well_formed (snd kv) = true ->
                    py_eq (snd kv) (snd kv) = true) d ->
  forallb (fun kv => well_formed (snd kv)) d = true ->
  (forall k v, In (k, v) d -> lookup k d' = Some v) ->
  items_in py_eq d' d = true.
Proof.
  induction 1 as [|[k v] d Hv _ IH]; simpl; [reflexivity |].
  rewrite andb_true_iff. intros [Hw Hl] Hin.
  rewrite (Hin k v) by now left.
  simpl in Hv. rewrite Hv, IH; auto.
Qed.

Lemma py_eq_refl (v : pyval) : well_formed v = true -> py_eq v v = true.
Proof.
  induction v as [| b | z | m e | s | l IH | d IH] using pyval_ind;
    intros Hw; simpl; auto using number_eq_refl, String.eqb_refl.
  - apply list_eq_refl; assumption.
  - simpl in Hw. apply andb_true_iff in Hw. destruct Hw as [Hd Hw].
    rewrite Nat.eqb_refl. simpl.
    apply items_in_refl; auto.
    intros k v. now apply distinct_In_lookup.
Qed.

Lemma py_eq_dict_left (d : dict) (y : pyval) :
  py_eq (PDict d) y = true -> is_dict y = true.
Proof. destruct y; simpl; auto. Qed.

Lemma py_eq_dict_right (x : pyval) (d : dict) :
  py_eq x (PDict d) = true -> is_dict x = true.
Proof. destruct x as [| [|] | | | | |]; simpl; auto. Qed.

(** ** One iteration of [merge] *)

Lemma merge_key_step rec path a key bv :
  merge_step rec path a key bv (merge_key rec path a (key, bv)).
Proof.
  unfold merge_key. destruct (lookup key a) as [av|] eqn:Ha.
  2: now apply step_copy.
  destruct av as [| ab | az | am ae | sa | la | ad];
    destruct bv as [| bb | bz | bm be | sb | lb | bd];
    try (destruct (rec (PDict bd) ad (path ++ [key])) as [[ad' bv'] r] eqn:Hr;
         eapply step_recurse; eauto; fail);
    try (eapply step_describe_a; eauto; fail);
    try (destruct (py_eq (PStr sa) (PDict bd)) eqn:E;
         [discriminate E | eapply step_describe_b; eauto]; fail);
    match goal with
    | |- context [if py_eq ?x ?y then _ else _] =>
        destruct (py_eq x y) eqn:E;
        [ eapply step_same; eauto
        | eapply step_conflict; eauto; unfold clash; rewrite E; reflexivity ]
    end.
Qed.

Lemma merge_key_frame rec path a key bv k :
  k <> key ->
  lookup k (a_after (merge_key rec path a (key, bv))) = lookup k a.
Proof.
  intros Hne. destruct (merge_key_step rec path a key bv);
    unfold a_after; simpl; auto using lookup_dict_set_other.
Qed.

Lemma merge_value_dict (bd a : dict) (path : list string) :
  merge_value (PDict bd) a path
  = (let '(a', bd', r) := merge_keys merge_value path bd a in
     (a', PDict bd', r)).
Proof. reflexivity. Qed.

Lemma clash_refl_false (v : pyval) :
  well_formed v = true -> clash v v = false.
Proof.
  intros Hw. unfold clash. rewrite (py_eq_refl v Hw).
  now destruct (is_dict v).
Qed.

(** ** Idempotence *)

(** Merging a list of items every one of which [a] already holds. *)
Lemma merge_keys_same (b : dict) :
  Forall (fun kv =>
            well_formed (snd kv) = true ->
            forall d path, snd kv = PDict d ->
              merge_keys merge_value path d d = (d, d, Ok tt)) b ->
  forallb (fun kv => well_formed (snd kv)) b = true ->
  forall a path,
    (forall k v, In (k, v) b -> lookup k a = Some v) ->
    merge_keys merge_value path b a = (a, b, Ok tt).
Proof.
  induction 1 as [|[key bv] b Hbv _ IH]; intros Hw a path Hin;
    [reflexivity |].
  simpl in Hw. apply andb_true_iff in Hw. destruct Hw as [Hwv Hwb].
  assert (Ha : lookup key a = Some bv) by (apply Hin; now left).
  assert (Hstep : merge_key merge_value path a (key, bv) = (a, bv, Ok tt)).
  { destruct (merge_key_step merge_value path a key bv)
      as [Hn | ad bd ad' bv' r Hl Hb Hr | av Hl Hd He
          | ad s Hl Hb | s bd Hl Hb | av Hl Hc].
    - congruence.
    - assert (E : bd = ad) by congruence. subst bd. subst bv.
      rewrite merge_value_dict in Hr.
      rewrite (Hbv Hwv ad (path ++ [key]) eq_refl) in Hr.
      injection Hr as E1 E2 E3. rewrite <- E1, <- E2, <- E3.
      now rewrite (dict_set_lookup_id a key (PDict ad)).
    - reflexivity.
    - congruence.
    - congruence.
    - assert (av = bv) by congruence. subst av.
      rewrite (clash_refl_false bv Hwv) in Hc. discriminate. }
  cbn [merge_keys]. rewrite Hstep.
  rewrite (IH Hwb a path) by (intros k v Hkv; apply Hin; now right).
  reflexivity.
Qed.

Lemma merge_same_value (v : pyval) :
  well_formed v = true ->
  forall d path, v = PDict d ->
    merge_keys merge_value path d d = (d, d, Ok tt).
Proof.
  induction v as [| b | z | m e | s | l IH | d0 IH] using pyval_ind;
    intros Hw d path E; try discriminate E.
  inversion E. subst d0. clear E.
  simpl in Hw. apply andb_true_iff in Hw. destruct Hw as [Hd Hw].
  apply merge_keys_same; auto.
  intros k v. now apply distinct_In_lookup.
Qed.

(** C9.  Merging an exact copy of a tree into the tree returns without
    raising and leaves the tree (and the copy) as it was. *)
Theorem merge_idempotent :
  forall (a : dict) (path : list string),
    well_formed (PDict a) = true ->
    merge a a path = (a, a, Ok tt).
Proof.
  intros a path Hw. unfold merge.
  now apply (merge_same_value (PDict a) Hw).
Qed.

Lemma merge_idempotent_witness :
  well_formed
    (PDict [("Items", PDict [("id", descr_type "Number");
                            ("name", PStr "The name")]);
            ("n", PList [PInt 1; PFloat 3 (-1); PNone])]) = true
  /\ merge
       [("Items", PDict [("id", descr_type "Number");
                         ("name", PStr "The name")]);
        ("n", PList [PInt 1; PFloat 3 (-1); PNone])]
       [("Items", PDict [("id", descr_type "Number");
                         ("name", PStr "The name")]);
        ("n", PList [PInt 1; PFloat 3 (-1); PNone])]
       []
     = ([("Items", PDict [("id", descr_type "Number");
                          ("name", PStr "The name")]);
         ("n", PList [PInt 1; PFloat 3 (-1); PNone])],
        [("Items", PDict [("id", descr_type "Number");
                          ("name", PStr "The name")]);
         ("n", PList [PInt 1; PFloat 3 (-1); PNone])],
        Ok tt).
Proof.
  split; [reflexivity |].
  apply (merge_idempotent
           [("Items", PDict [("id", descr_type "Number");
                             ("name", PStr "The name")]);
            ("n", PList [PInt 1; PFloat 3 (-1); PNone])] []).
  reflexivity.
Defined.

(** ** Paths *)

Lemma get_path_lookup_eq (d d' : dict) (k : string) (p : list string) :
  lookup k d = lookup k d' -> get_path d (k :: p) = get_path d' (k :: p).
Proof. intros E. simpl. now rewrite E. Qed.

Lemma get_path_one (d : dict) (k : string) : get_path d [k] = lookup k d.
Proof. simpl. now destruct (lookup k d). Qed.

Lemma get_path_nested (d d' : dict) (k k' : string) (p : list string) :
  lookup k d = Some (PDict d') ->
  get_path d (k :: k' :: p) = get_path d' (k' :: p).
Proof. intros E. cbn [get_path]. now rewrite E. Qed.

Lemma get_path_deep (d : dict) (k k' : string) (p : list string) (v : pyval) :
  get_path d (k :: k' :: p) = Some v ->
  exists d', lookup k d = Some (PDict d') /\ get_path d' (k' :: p) = Some v.
Proof.
  cbn [get_path]. destruct (lookup k d) as [[| | | | | |d']|];
    try discriminate.
  intros H. now exists d'.
Qed.

Lemma get_path_head (d : dict) (k : string) (p : list string) (v : pyval) :
  get_path d (k :: p) = Some v -> exists x, lookup k d = Some x.
Proof.
  simpl. destruct (lookup k d) as [x|]; [eauto | discriminate].
Qed.

Lemma get_path_skip (key k : string) (bv : pyval) (rest : dict)
    (p : list string) :
  k <> key -> get_path ((key, bv) :: rest) (k :: p) = get_path rest (k :: p).
Proof.
  intros Hne. apply get_path_lookup_eq. simpl.
  apply String.eqb_neq in Hne. now rewrite Hne.
Qed.

Lemma get_path_here (key : string) (bv : pyval) (rest : dict)
    (p : list string) :
  get_path ((key, bv) :: rest) (key :: p) = get_path [(key, bv)] (key :: p).
Proof. apply get_path_lookup_eq. simpl. now rewrite String.eqb_refl. Qed.

Lemma get_path_keys (d : dict) (k : string) (p : list string) (v : pyval) :
  get_path d (k :: p) = Some v -> In k (keys d).
Proof.
  intros H. apply get_path_head in H. destruct H as [x Hx].
  apply lookup_In in Hx. change k with (fst (k, x)). now apply in_map.
Qed.

(** ** Conflicts *)

Lemma merge_keys_cons rec path key bv rest a :
  merge_keys rec path ((key, bv) :: rest) a
  = (let '(a', bv', r) := merge_key rec path a (key, bv) in
     match r with
     | Ok _ =>
         let '(a'', rest', r') := merge_keys rec path rest a' in
         (a'', (key, bv') :: rest', r')
     | Raise e => (a', (key, bv') :: rest, Raise e)
     end).
Proof. reflexivity. Qed.

Lemma conflict_at_later a a1 key bv rest path e :
  ~ In key (keys rest) ->
  (forall k, k <> key -> lookup k a1 = lookup k a) ->
  conflict_at a1 rest path e ->
  conflict_at a ((key, bv) :: rest) path e.
Proof.
  intros Hnot Hframe (q & av & bv' & Ha & Hb & Hc & He).
  destruct q as [|k q]; [discriminate Ha |].
  assert (Hne : k <> key).
  { intros ->. apply Hnot. eapply get_path_keys; eauto. }
  exists (k :: q), av, bv'. repeat split; auto.
  - rewrite <- Ha. apply get_path_lookup_eq. symmetry. now apply Hframe.
  - now rewrite get_path_skip.
Qed.

Lemma conflict_at_nested a ad bd key rest path e :
  lookup key a = Some (PDict ad) ->
  conflict_at ad bd (path ++ [key]) e ->
  conflict_at a ((key, PDict bd) :: rest) path e.
Proof.
  intros Hl (q & av & bv & Ha & Hb & Hc & He).
  destruct q as [|k q]; [discriminate Ha |].
  exists (key :: k :: q), av, bv. repeat split; auto.
  - now rewrite (get_path_nested a ad).
  - rewrite get_path_here. rewrite (get_path_nested _ bd); auto.
    simpl. now rewrite String.eqb_refl.
  - rewrite He. now rewrite <- app_assoc.
Qed.

(** Every exception of [merge] is a conflict at a path of both trees. *)
Lemma merge_keys_raise_sound (b : dict) :
  Forall (fun kv =>
            forall d, snd kv = PDict d -> well_formed (snd kv) = true ->
            forall a path a' b' e,
              merge_keys merge_value path d a = (a', b', Raise e) ->
              conflict_at a d path e) b ->
  distinct (keys b) = true ->
  forallb (fun kv => well_formed (snd kv)) b = true ->
  forall a path a' b' e,
    merge_keys merge_value path b a = (a', b', Raise e) ->
    conflict_at a b path e.
Proof.
  induction 1 as [|[key bv] rest Hbv _ IH]; intros Hd Hw a path a' b' e Hm.
  - discriminate Hm.
  - simpl keys in Hd. apply distinct_cons in Hd. destruct Hd as [Hnot Hd].
    simpl in Hw. apply andb_true_iff in Hw. destruct Hw as [Hwv Hwr].
    rewrite merge_keys_cons in Hm.
    pose proof (merge_key_frame merge_value path a key bv) as Hframe.
    pose proof (merge_key_step merge_value path a key bv) as Hs.
    destruct (merge_key merge_value path a (key, bv)) as [[a1 bv1] r1].
    unfold a_after in Hframe. simpl in Hframe.
    destruct r1 as [u|e1].
    + destruct (merge_keys merge_value path rest a1) as [[a2 rest2] r2] eqn:Hr.
      inversion Hm. subst.
      eapply conflict_at_later; eauto.
    + inversion Hm. subst. clear Hm.
      inversion Hs; subst.
      * match goal with
        | Hr : merge_value _ _ _ = _ |- _ =>
            rewrite merge_value_dict in Hr;
            destruct (merge_keys merge_value (path ++ [key]) bd ad)
              as [[ad2 bd2] r2] eqn:Hn;
            inversion Hr; subst
        end.
        eapply conflict_at_nested; eauto.
      * exists [key]. do 2 eexists.
        split; [rewrite get_path_one; eassumption |].
        split; [rewrite get_path_one; simpl; rewrite String.eqb_refl;
                reflexivity |].
        split; [assumption | reflexivity].
Qed.

Lemma merge_raise_sound (v : pyval) :
  forall d, v = PDict d -> well_formed v = true ->
  forall a path a' b' e,
    merge_keys merge_value path d a = (a', b', Raise e) ->
    conflict_at a d path e.
Proof.
  induction v as [| b | z | m e | s | l IH | d0 IH] using pyval_ind;
    intros d E Hw; try discriminate E.
  inversion E. subst d0. clear E.
  simpl in Hw. apply andb_true_iff in Hw. destruct Hw as [Hd Hw].
  now apply merge_keys_raise_sound.
Qed.

Lemma clash_not_eq (av bv : pyval) :
  clash av bv = true -> py_eq av bv = false.
Proof.
  unfold clash. destruct (py_eq av bv); [| reflexivity].
  rewrite andb_false_r. simpl. discriminate.
Qed.

(** Two irreconcilable values at one path make [merge] raise. *)
Lemma merge_keys_raises (b : dict) :
  Forall (fun kv =>
            forall d, snd kv = PDict d -> well_formed (snd kv) = true ->
            forall a path q av bv,
              get_path a q = Some av -> get_path d q = Some bv ->
              clash av bv = true ->
              exists e, outcome (merge_keys merge_value path d a) = Raise e)
         b ->
  distinct (keys b) = true ->
  forallb (fun kv => well_formed (snd kv)) b = true ->
  forall a path q av bv,
    get_path a q = Some av -> get_path b q = Some bv ->
    clash av bv = true ->
    exists e, outcome (merge_keys merge_value path b a) = Raise e.
Proof.
  induction 1 as [|[key v] rest Hv _ IH];
    intros Hd Hw a path q av bv Ha Hb Hc.
  - destruct q; discriminate Hb.
  - simpl keys in Hd. apply distinct_cons in Hd. destruct Hd as [Hnot Hd].
    simpl in Hw. apply andb_true_iff in Hw. destruct Hw as [Hwv Hwr].
    destruct q as [|k q]; [discriminate Ha |].
    rewrite merge_keys_cons.
    destruct (String.eqb_spec k key) as [->|Hne].
    + (* the clash is under this key: the iteration raises *)
      rewrite get_path_here in Hb.
      destruct (merge_key_step merge_value path a key v)
        as [Hn | ad0 bd0 ad' bv' r Hl Hv0 Hr | av0 Hl Hd0 He
            | ad0 s Hl Hv0 | s bd0 Hl Hv0 | av0 Hl Hc0].
      * apply get_path_head in Ha. destruct Ha as [x Hx]. congruence.
      * destruct q as [|k' q].
        -- rewrite get_path_one in Ha, Hb. simpl in Hb.
           rewrite String.eqb_refl in Hb.
           assert (av = PDict ad0) by congruence.
           assert (bv = PDict bd0) by congruence. subst av bv.
           discriminate Hc.
        -- apply get_path_deep in Ha. destruct Ha as (ad & Hla & Ha).
           apply get_path_deep in Hb. destruct Hb as (bd & Hlb & Hb).
           simpl in Hlb. rewrite String.eqb_refl in Hlb.
           assert (ad0 = ad) by congruence.
           assert (bd = bd0) by congruence. subst ad0 bd. subst v.
           rewrite merge_value_dict in Hr.
           destruct (Hv bd0 eq_refl Hwv ad (path ++ [key]) _ _ _ Ha Hb Hc)
             as [e He].
           unfold outcome in He.
           destruct (merge_keys merge_value (path ++ [key]) bd0 ad)
             as [[ad2 bd2] r2].
           simpl in He. subst r2. inversion Hr. subst r.
           exists e. reflexivity.
      * exfalso. destruct q as [|k' q].
        -- rewrite get_path_one in Ha, Hb. simpl in Hb.
           rewrite String.eqb_refl in Hb.
           assert (av0 = av) by congruence.
           assert (v = bv) by congruence. subst av0 v.
           apply clash_not_eq in Hc. congruence.
        -- apply get_path_deep in Ha. destruct Ha as (ad & Hla & Ha).
           apply get_path_deep in Hb. destruct Hb as (bd & Hlb & Hb).
           simpl in Hlb. rewrite String.eqb_refl in Hlb.
           assert (av0 = PDict ad) by congruence.
           assert (v = PDict bd) by congruence. subst av0 v.
           discriminate Hd0.
      * exfalso. destruct q as [|k' q].
        -- rewrite get_path_one in Ha, Hb. simpl in Hb.
           rewrite String.eqb_refl in Hb.
           assert (av = PDict ad0) by congruence.
           assert (bv = PStr s) by congruence. subst av bv.
           discriminate Hc.
        -- apply get_path_deep in Hb. destruct Hb as (bd & Hlb & Hb).
           simpl in Hlb. rewrite String.eqb_refl in Hlb. congruence.
      * exfalso. destruct q as [|k' q].
        -- rewrite get_path_one in Ha, Hb. simpl in Hb.
           rewrite String.eqb_refl in Hb.
           assert (av = PStr s) by congruence.
           assert (bv = PDict bd0) by congruence. subst av bv.
           discriminate Hc.
        -- apply get_path_deep in Ha. destruct Ha as (ad & Hla & Ha).
           congruence.
      * eexists. reflexivity.
    + pose proof (merge_key_frame merge_value path a key v k Hne) as Hframe.
      destruct (merge_key merge_value path a (key, v)) as [[a1 v1] r1].
      unfold a_after in Hframe. simpl in Hframe.
      destruct r1 as [u|e1]; [| now exists e1].
      destruct (IH Hd Hwr a1 path (k :: q) av bv) as [e He]; auto.
      * rewrite <- Ha. now apply get_path_lookup_eq.
      * now rewrite get_path_skip in Hb.
      * exists e. unfold outcome in *.
        destruct (merge_keys merge_value path rest a1) as [[a2 rest2] r2].
        exact He.
Qed.

Lemma merge_raises (v : pyval) :
  forall d, v = PDict d -> well_formed v = true ->
  forall a path q av bv,
    get_path a q = Some av -> get_path d q = Some bv ->
    clash av bv = true ->
    exists e, outcome (merge_keys merge_value path d a) = Raise e.
Proof.
  induction v as [| b | z | m e | s | l IH | d0 IH] using pyval_ind;
    intros d E Hw; try discriminate E.
  inversion E. subst d0. clear E.
  simpl in Hw. apply andb_true_iff in Hw. destruct Hw as [Hd Hw].
  now apply merge_keys_raises.
Qed.

(** C7.  When the two trees hold, at one path, values that cannot be
    reconciled (two unequal scalars, or a mapping facing something that is
    no string), [merge] raises the conflict exception, and its message is
    the full dotted path of such a key. *)
Theorem merge_conflict :
  forall (a b : dict) (path p : list string) (av bv : pyval),
    well_formed (PDict b) = true ->
    get_path a p = Some av ->
    get_path b p = Some bv ->
    clash av bv = true ->
    exists q av' bv',
      get_path a q = Some av' /\ get_path b q = Some bv'
      /\ clash av' bv' = true
      /\ outcome (merge a b path)
         = Raise (Exception
                    ("Conflict at " ++ String.concat "." (path ++ q))).
Proof.
  intros a b path p av bv Hw Ha Hb Hc.
  destruct (merge_raises (PDict b) b eq_refl Hw a path p av bv Ha Hb Hc)
    as [e He].
  unfold merge, outcome in *.
  destruct (merge_keys merge_value path b a) as [[a' b'] r] eqn:Hm.
  simpl in He. subst r.
  destruct (merge_raise_sound (PDict b) b eq_refl Hw a path a' b' e Hm)
    as (q & av' & bv' & Ha' & Hb' & Hc' & Hmsg).
  exists q, av', bv'. simpl. now rewrite Hmsg.
Qed.

Lemma merge_conflict_witness :
  exists q av' bv',
    get_path [("a", PInt 2)] q = Some av'
    /\ get_path [("a", PInt 1)] q = Some bv'
    /\ clash av' bv' = true
    /\ outcome (merge [("a", PInt 2)] [("a", PInt 1)] [])
       = Raise (Exception ("Conflict at " ++ String.concat "." ([] ++ q))).
Proof.
  apply (merge_conflict [("a", PInt 2)] [("a", PInt 1)] [] ["a"]
           (PInt 2) (PInt 1)); reflexivity.
Defined.

(** When the two trees clash at one path only, the message names it. *)
Corollary merge_conflict_unique :
  forall (a b : dict) (path p : list string) (av bv : pyval),
    well_formed (PDict b) = true ->
    get_path a p = Some av ->
    get_path b p = Some bv ->
    clash av bv = true ->
    (forall q av' bv',
        get_path a q = Some av' -> get_path b q = Some bv' ->
        clash av' bv' = true -> q = p) ->
    outcome (merge a b path)
    = Raise (Exception ("Conflict at " ++ String.concat "." (path ++ p))).
Proof.
  intros a b path p av bv Hw Ha Hb Hc Honly.
  destruct (merge_raises (PDict b) b eq_refl Hw a path p av bv Ha Hb Hc)
    as [e He].
  unfold merge, outcome in *.
  destruct (merge_keys merge_value path b a) as [[a' b'] r] eqn:Hm.
  simpl in He. subst r.
  destruct (merge_raise_sound (PDict b) b eq_refl Hw a path a' b' e Hm)
    as (q & av' & bv' & Ha' & Hb' & Hc' & Hmsg).
  rewrite (Honly q av' bv' Ha' Hb' Hc') in Hmsg. simpl. now rewrite Hmsg.
Qed.

(** ** Leaves through a merge *)

Lemma merge_keys_frame rec path (b : dict) :
  forall a k,
    ~ In k (keys b) ->
    lookup k (a_after (merge_keys rec path b a)) = lookup k a.
Proof.
  induction b as [|[key bv] rest IH]; intros a k Hnot; [reflexivity |].
  rewrite merge_keys_cons.
  assert (Hne : k <> key) by (intros ->; apply Hnot; now left).
  assert (Hrest : ~ In k (keys rest)) by (intros H; apply Hnot; now right).
  pose proof (merge_key_frame rec path a key bv k Hne) as Hframe.
  destruct (merge_key rec path a (key, bv)) as [[a1 bv1] r1].
  unfold a_after in Hframe. simpl in Hframe.
  destruct r1 as [u|e]; [| exact Hframe].
  specialize (IH a1 k Hrest). unfold a_after in *.
  destruct (merge_keys rec path rest a1) as [[a2 rest2] r2].
  simpl in *. congruence.
Qed.

Lemma free_items_frame rec (a a1 rest : dict) :
  (forall k, In k (keys rest) -> lookup k a1 = lookup k a) ->
  free_items rec a1 rest = free_items rec a rest.
Proof.
  unfold free_items. induction rest as [|[k v] rest IH]; intros H;
    [reflexivity |].
  simpl. rewrite (H k) by now left.
  rewrite IH; [reflexivity |]. intros k' Hin. apply H. now right.
Qed.

Lemma leaf_lookup_eq (d d' : dict) k p v :
  lookup k d = lookup k d' -> leaf d (k :: p) v -> leaf d' (k :: p) v.
Proof.
  intros E [H1 H2]. split; [| assumption].
  rewrite <- H1. symmetry. now apply get_path_lookup_eq.
Qed.

Lemma kept_lookup_eq (d d' : dict) k p v :
  lookup k d = lookup k d' -> kept d (k :: p) v -> kept d' (k :: p) v.
Proof.
  intros E [[v' [Hl Hv]]|Hl].
  - left. exists v'. split; [| assumption]. now apply (leaf_lookup_eq d).
  - right. now apply (leaf_lookup_eq d).
Qed.

Lemma leaf_kept (d : dict) p v : leaf d p v -> kept d p v.
Proof. intros H. left. exists v. auto. Qed.

Lemma leaf_nested (d d' : dict) k k' p v :
  lookup k d = Some (PDict d') ->
  leaf d (k :: k' :: p) v <-> leaf d' (k' :: p) v.
Proof.
  intros E. unfold leaf. now rewrite (get_path_nested d d').
Qed.

Lemma kept_nested (d d' : dict) k k' p v :
  lookup k d = Some (PDict d') ->
  kept d' (k' :: p) v -> kept d (k :: k' :: p) v.
Proof.
  intros E [[v' [Hl Hv]]|Hl].
  - left. exists v'. split; [| assumption]. now apply (leaf_nested d d').
  - right. now apply (leaf_nested d d' k k' (p ++ ["description"])).
Qed.

Lemma leaf_one (d : dict) k v :
  leaf d [k] v <-> lookup k d = Some v /\ is_dict v = false.
Proof. unfold leaf. now rewrite get_path_one. Qed.

Lemma leaf_set_description (ad : dict) k p v x :
  mem "description" ad = false ->
  leaf ad (k :: p) v -> leaf (dict_set ad "description" x) (k :: p) v.
Proof.
  intros Hm Hl. apply (leaf_lookup_eq ad); [| assumption].
  destruct (String.eqb_spec k "description") as [->|Hne].
  - exfalso. destruct Hl as [Hl _]. apply get_path_head in Hl.
    destruct Hl as [y Hy]. unfold mem in Hm. now rewrite Hy in Hm.
  - symmetry. now apply lookup_dict_set_other.
Qed.

(** One iteration keeps the leaves under its key. *)
Lemma merge_key_keeps path a key bv :
  (forall bd, bv = PDict bd -> well_formed bv = true ->
   forall ad path ad' bd',
     free_items description_free ad bd = true ->
     merge_keys merge_value path bd ad = (ad', bd', Ok tt) ->
     forall p v, leaf ad p v \/ leaf bd p v -> kept ad' p v) ->
  well_formed bv = true ->
  match lookup key a with
  | Some x => description_free bv x
  | None => true
  end = true ->
  outcome (merge_key merge_value path a (key, bv)) = Ok tt ->
  forall p v,
    leaf a (key :: p) v \/ leaf [(key, bv)] (key :: p) v ->
    kept (a_after (merge_key merge_value path a (key, bv))) (key :: p) v.
Proof.
  intros Hnest Hw Hfree Hok p v Hleaf.
  assert (Hb1 : forall x, leaf [(key, bv)] [key] x -> x = bv).
  { intros x [Hx _]. rewrite get_path_one in Hx. simpl in Hx.
    rewrite String.eqb_refl in Hx. congruence. }
  assert (Hb2 : forall k' q x, leaf [(key, bv)] (key :: k' :: q) x ->
                exists bd, bv = PDict bd /\ leaf bd (k' :: q) x).
  { intros k' q x [Hx Hd]. apply get_path_deep in Hx.
    destruct Hx as (bd & Hl & Hx). simpl in Hl.
    rewrite String.eqb_refl in Hl. exists bd. split; [congruence |].
    now split. }
  revert Hok.
  destruct (merge_key_step merge_value path a key bv)
    as [Hn | ad bd ad' bv' r Hl Hv Hr | av Hl Hd He
        | ad s Hl Hv | s bd Hl Hv | av Hl Hc];
    unfold outcome, a_after; cbn [fst snd]; intros Hok.
  - (* the key is new in [a] *)
    destruct Hleaf as [[Hp _]|Hleaf].
    + apply get_path_head in Hp. destruct Hp as [x Hx]. congruence.
    + apply leaf_kept. apply (leaf_lookup_eq [(key, bv)]); [| assumption].
      rewrite lookup_dict_set_same. simpl. now rewrite String.eqb_refl.
  - (* two mappings *)
    subst bv r. rewrite Hl in Hfree. cbn [description_free] in Hfree.
    rewrite merge_value_dict in Hr.
    destruct (merge_keys merge_value (path ++ [key]) bd ad)
      as [[ad2 bd2] r2] eqn:Hm.
    inversion Hr. subst ad2 bv' r2. clear Hr.
    destruct p as [|k' q].
    + exfalso. destruct Hleaf as [Hp|Hp].
      * apply leaf_one in Hp. destruct Hp as [Hp Hd].
        rewrite Hl in Hp. inversion Hp. subst v. discriminate Hd.
      * destruct Hp as [Hp Hd]. rewrite (Hb1 v) in Hd by now split.
        discriminate Hd.
    + apply (kept_nested _ ad'); [apply lookup_dict_set_same |].
      apply (Hnest bd eq_refl Hw ad (path ++ [key]) ad' bd2 Hfree Hm).
      destruct Hleaf as [Hp|Hp].
      * left. now apply (leaf_nested a ad key).
      * right. apply Hb2 in Hp. destruct Hp as (bd0 & E & Hp).
        inversion E. now subst bd0.
  - (* equal values *)
    destruct Hleaf as [Hp|Hp]; [now apply leaf_kept |].
    destruct p as [|k' q].
    + pose proof (Hb1 v Hp) as E. subst v. destruct Hp as [_ Hdb].
      left. exists av. split; [| now right].
      apply leaf_one. split; [assumption |].
      destruct av; try reflexivity.
      apply py_eq_dict_left in He. congruence.
    + exfalso. apply Hb2 in Hp. destruct Hp as (bd0 & E & _). subst bv.
      apply py_eq_dict_right in He. rewrite He in Hd. discriminate Hd.
  - (* a mapping of [a] takes the string of [b] as its description *)
    subst bv. rewrite Hl in Hfree. cbn [description_free] in Hfree.
    apply negb_true_iff in Hfree.
    destruct Hleaf as [Hp|Hp].
    + destruct p as [|k' q].
      * exfalso. apply leaf_one in Hp. destruct Hp as [Hp Hd].
        rewrite Hl in Hp. inversion Hp. subst v. discriminate Hd.
      * apply leaf_kept.
        apply (leaf_nested _ (dict_set ad "description" (PStr s)));
          [apply lookup_dict_set_same |].
        apply leaf_set_description; [assumption |].
        now apply (leaf_nested a ad key).
    + destruct p as [|k' q].
      * rewrite (Hb1 v Hp). right. simpl app.
        apply (leaf_nested _ (dict_set ad "description" (PStr s)));
          [apply lookup_dict_set_same |].
        apply leaf_one. split; [apply lookup_dict_set_same | reflexivity].
      * exfalso. apply Hb2 in Hp. destruct Hp as (bd0 & E & _).
        discriminate E.
  - (* a mapping of [b] takes the string of [a] as its description *)
    subst bv. rewrite Hl in Hfree. cbn [description_free] in Hfree.
    apply negb_true_iff in Hfree.
    destruct Hleaf as [Hp|Hp].
    + destruct p as [|k' q].
      * apply leaf_one in Hp. destruct Hp as [Hp Hd].
        rewrite Hl in Hp. inversion Hp. subst v.
        right. simpl app.
        apply (leaf_nested _ (dict_set bd "description" (PStr s)));
          [apply lookup_dict_set_same |].
        apply leaf_one. split; [apply lookup_dict_set_same | reflexivity].
      * exfalso. destruct Hp as [Hp _]. apply get_path_deep in Hp.
        destruct Hp as (d' & E & _). congruence.
    + destruct p as [|k' q].
      * exfalso. destruct Hp as [Hp Hd]. rewrite (Hb1 v) in Hd by now split.
        discriminate Hd.
      * apply leaf_kept.
        apply (leaf_nested _ (dict_set bd "description" (PStr s)));
          [apply lookup_dict_set_same |].
        apply leaf_set_description; [assumption |].
        apply Hb2 in Hp. destruct Hp as (bd0 & E & Hp).
        inversion E. now subst bd0.
  - discriminate Hok.
Qed.

Lemma merge_keys_keeps (b : dict) :
  Forall (fun kv =>
            forall bd, snd kv = PDict bd -> well_formed (snd kv) = true ->
            forall ad path ad' bd',
              free_items description_free ad bd = true ->
              merge_keys merge_value path bd ad = (ad', bd', Ok tt) ->
              forall p v, leaf ad p v \/ leaf bd p v -> kept ad' p v) b ->
  distinct (keys b) = true ->
  forallb (fun kv => well_formed (snd kv)) b = true ->
  forall a path a' b',
    free_items description_free a b = true ->
    merge_keys merge_value path b a = (a', b', Ok tt) ->
    forall p v, leaf a p v \/ leaf b p v -> kept a' p v.
Proof.
  induction 1 as [|[key bv] rest Hbv _ IH];
    intros Hd Hw a path a' b' Hfree Hm p v Hleaf.
  - inversion Hm. subst. destruct Hleaf as [Hp|[Hp _]].
    + now apply leaf_kept.
    + destruct p; discriminate Hp.
  - simpl keys in Hd. apply distinct_cons in Hd. destruct Hd as [Hnot Hd].
    simpl in Hw. apply andb_true_iff in Hw. destruct Hw as [Hwv Hwr].
    unfold free_items in Hfree. simpl in Hfree.
    apply andb_true_iff in Hfree. destruct Hfree as [Hfv Hfr].
    fold (free_items description_free a rest) in Hfr.
    rewrite merge_keys_cons in Hm.
    pose proof (merge_key_keeps path a key bv Hbv Hwv Hfv) as Hkey.
    pose proof (merge_key_frame merge_value path a key bv) as Hframe.
    destruct (merge_key merge_value path a (key, bv)) as [[a1 bv1] r1].
    unfold a_after, outcome in Hkey, Hframe. simpl in Hkey, Hframe.
    destruct r1 as [[]|e1]; [| discriminate Hm].
    pose proof (merge_keys_frame merge_value path rest a1 key Hnot) as Hrest.
    destruct (merge_keys merge_value path rest a1) as [[a2 rest2] r2] eqn:Hr.
    unfold a_after in Hrest. simpl in Hrest.
    inversion Hm. subst a2 b' r2. clear Hm.
    assert (Hp : exists k q, p = k :: q).
    { destruct p as [|k q]; [| now eauto].
      destruct Hleaf as [[Hp _]|[Hp _]]; discriminate Hp. }
    destruct Hp as (k & q & ->).
    destruct (String.eqb_spec k key) as [->|Hne].
    + apply (kept_lookup_eq a1); [now symmetry |].
      apply Hkey; [reflexivity |].
      destruct Hleaf as [Hp|Hp]; [now left | right].
      destruct Hp as [Hp Hdv]. split; [| assumption].
      now rewrite <- (get_path_here key bv rest).
    + apply (IH Hd Hwr a1 path a' rest2); auto.
      * rewrite <- Hfr. apply free_items_frame.
        intros k' Hin. apply Hframe. intros ->. contradiction.
      * destruct Hleaf as [Hp|Hp].
        -- left. apply (leaf_lookup_eq a); [| assumption].
           symmetry. now apply Hframe.
        -- right. destruct Hp as [Hp Hdv]. split; [| assumption].
           now rewrite get_path_skip in Hp.
Qed.

Lemma merge_value_keeps (bv : pyval) :
  forall bd, bv = PDict bd -> well_formed bv = true ->
  forall ad path ad' bd',
    free_items description_free ad bd = true ->
    merge_keys merge_value path bd ad = (ad', bd', Ok tt) ->
    forall p v, leaf ad p v \/ leaf bd p v -> kept ad' p v.
Proof.
  induction bv as [| b | z | m e | s | l IH | d0 IH] using pyval_ind;
    intros bd E Hw; try discriminate E.
  inversion E. subst d0. clear E.
  simpl in Hw. apply andb_true_iff in Hw. destruct Hw as [Hd Hw].
  now apply merge_keys_keeps.
Qed.

(** C8, as stated: a string of [b] replaces the description a mapping of [a]
    already has; [merge] returns, and no path of the result holds the old
    description. *)
Lemma merge_loses_description :
  outcome (merge [("k", PDict [("description", PStr "old")])]
             [("k", PStr "new")] []) = Ok tt
  /\ leaf [("k", PDict [("description", PStr "old")])]
       ["k"; "description"] (PStr "old")
  /\ forall p,
       get_path
         (a_after (merge [("k", PDict [("description", PStr "old")])]
                     [("k", PStr "new")] [])) p
       <> Some (PStr "old").
Proof.
  split; [reflexivity |]. split; [split; reflexivity |].
  intros p. change (a_after _) with [("k", PDict [("description", PStr "new")])].
  destruct p as [|k1 [|k2 [|k3 p]]]; cbn [get_path lookup].
  - discriminate.
  - destruct (String.eqb k1 "k"); discriminate.
  - destruct (String.eqb k1 "k"); [| discriminate].
    cbn [get_path lookup]. destruct (String.eqb k2 "description"); discriminate.
  - destruct (String.eqb k1 "k"); [| discriminate].
    cbn [get_path lookup]. destruct (String.eqb k2 "description"); discriminate.
Qed.

(** C8, amended.  When no mapping that receives a string as its description
    has a description already, a merge that returns keeps every leaf of both
    trees: at its path, with its value or one equal to it, or as the
    description of the mapping now at that path. *)
Theorem merge_keeps_leaves :
  forall (a b : dict) (path : list string),
    well_formed (PDict b) = true ->
    description_free (PDict b) (PDict a) = true ->
    outcome (merge a b path) = Ok tt ->
    forall p v,
      leaf a p v \/ leaf b p v -> kept (a_after (merge a b path)) p v.
Proof.
  intros a b path Hw Hfree Hok p v Hleaf.
  unfold merge, outcome, a_after in *.
  destruct (merge_keys merge_value path b a) as [[a' b'] r] eqn:Hm.
  simpl in *. subst r.
  now apply (merge_value_keeps (PDict b) b eq_refl Hw a path a' b' Hfree Hm).
Qed.

Lemma merge_keeps_leaves_witness :
  well_formed (PDict [("a", PDict [("type", PStr "Number")])]) = true
  /\ description_free (PDict [("a", PDict [("type", PStr "Number")])])
       (PDict [("a", PStr "An example field")]) = true
  /\ outcome (merge [("a", PStr "An example field")]
                [("a", PDict [("type", PStr "Number")])] []) = Ok tt
  /\ kept (a_after (merge [("a", PStr "An example field")]
                      [("a", PDict [("type", PStr "Number")])] []))
       ["a"] (PStr "An example field").
Proof.
  split; [reflexivity |]. split; [reflexivity |]. split; [reflexivity |].
  apply (merge_keeps_leaves [("a", PStr "An example field")]
           [("a", PDict [("type", PStr "Number")])] []);
    try reflexivity.
  left. split; reflexivity.
Defined.

(** ** More facts about dictionaries *)

Lemma bind_Ok {A B : Type} (r : result A) (k : A -> result B) (y : B) :
  bind r k = Ok y -> exists x, r = Ok x /\ k x = Ok y.
Proof.
  destruct r as [x|e]; simpl; [eauto | discriminate].
Qed.

Section UpdateFacts.
Context {A : Type}.
Implicit Types (d e : list (string * A)) (k : string) (v : A).

Lemma dict_update_cons d k v e :
  dict_update d ((k, v) :: e) = dict_update (dict_set d k v) e.
Proof. reflexivity. Qed.

Lemma In_dict_set d k v k' v' :
  In (k', v') (dict_set d k v) -> (k' = k /\ v' = v) \/ In (k', v') d.
Proof.
  induction d as [|[k1 v1] d IH]; simpl.
  - intros [E|[]]. inversion E. auto.
  - destruct (String.eqb_spec k k1) as [->|Hne]; simpl.
    + intros [E|H]; [inversion E; auto | auto].
    + intros [E|H]; [auto | destruct (IH H); auto].
Qed.

Lemma In_dict_update e : forall d k v,
  In (k, v) (dict_update d e) -> In (k, v) d \/ In (k, v) e.
Proof.
  induction e as [|[k1 v1] e IH]; intros d k v H; [now left |].
  rewrite dict_update_cons in H. apply IH in H. destruct H as [H|H].
  - apply In_dict_set in H. destruct H as [[-> ->]|H]; [right; now left | auto].
  - right. now right.
Qed.

Lemma mem_dict_update e : forall d k,
  mem k (dict_update d e) = mem k d || mem k e.
Proof.
  induction e as [|[k1 v1] e IH]; intros d k.
  - simpl. now rewrite orb_false_r.
  - rewrite dict_update_cons, IH, mem_dict_set.
    unfold mem at 4. simpl.
    destruct (String.eqb k k1); simpl.
    + now rewrite orb_true_r.
    + reflexivity.
Qed.

Lemma lookup_dict_update_None e : forall d k,
  lookup k e = None -> lookup k (dict_update d e) = lookup k d.
Proof.
  induction e as [|[k1 v1] e IH]; intros d k H; [reflexivity |].
  simpl in H. destruct (String.eqb_spec k k1) as [E|Hne]; [discriminate |].
  rewrite dict_update_cons, IH by assumption.
  now apply lookup_dict_set_other.
Qed.

Lemma lookup_dict_update_Some e : forall d k v,
  distinct (keys e) = true ->
  lookup k e = Some v -> lookup k (dict_update d e) = Some v.
Proof.
  induction e as [|[k1 v1] e IH]; intros d k v Hd H; [discriminate |].
  simpl keys in Hd. apply distinct_cons in Hd. destruct Hd as [Hnot Hd].
  rewrite dict_update_cons. simpl in H.
  destruct (String.eqb_spec k k1) as [E|Hne].
  - inversion H. subst v1 k1.
    rewrite lookup_dict_update_None; [apply lookup_dict_set_same |].
    now apply lookup_None_keys.
  - now apply IH.
Qed.

Lemma keys_dict_set d k v x :
  In x (keys (dict_set d k v)) -> x = k \/ In x (keys d).
Proof.
  unfold keys. rewrite in_map_iff. intros [[k' v'] [E H]]. simpl in E. subst k'.
  apply In_dict_set in H. destruct H as [[-> _]|H]; [now left | right].
  change x with (fst (x, v')). now apply in_map.
Qed.

Lemma distinct_dict_set d k v :
  distinct (keys d) = true -> distinct (keys (dict_set d k v)) = true.
Proof.
  induction d as [|[k1 v1] d IH]; intros Hd; [reflexivity |].
  simpl keys in Hd. apply distinct_cons in Hd. destruct Hd as [Hnot Hd].
  simpl. destruct (String.eqb_spec k k1) as [->|Hne].
  - apply distinct_cons. auto.
  - simpl keys. apply distinct_cons. split; [| auto].
    intros H. apply keys_dict_set in H. destruct H as [->|H]; auto.
Qed.
End UpdateFacts.

(** ** The walk of [get_schema] *)

Ltac bind_inv H x Hx :=
  apply bind_Ok in H; destruct H as (x & Hx & H).

Lemma fresh_descr_type_value t v : fresh_descr (descr_type_value t v) = true.
Proof. reflexivity. Qed.

Lemma fresh_descr_type t : fresh_descr (descr_type t) = true.
Proof. reflexivity. Qed.

(** What one key does to the fields of the table and to the nested
    tables, when it does not raise. *)
Lemma visit_key_Ok rec tn cfm ctf ct k v ctf' ct' :
  visit_key rec tn cfm (ctf, ct) (k, v) = Ok (ctf', ct') ->
  (exists x, ctf' = dict_set ctf k x /\ fresh_descr x = true)
  /\ (ct' = ct
      \/ exists n t, child_name_of cfm tn (k, v) = Some n
                     /\ ct' = dict_set ct n t).
Proof.
  unfold visit_key.
  destruct v as [| b | z | m e | s | l | d];
    try (intros H; inversion H; subst; split;
         [eexists; split; [reflexivity | reflexivity] | now left]).
  - (* an array *)
    destruct (makes_child (PList l)) eqn:Hmk.
    + intros H. bind_inv H name Hname.
      destruct name as [| | | | n | |]; try discriminate H.
      unfold list_of_objects in H.
      bind_inv H new Hnew. bind_inv H marked Hmarked.
      bind_inv H ct2 Hct. inversion H. subst ctf' ct'. clear H.
      split; [eexists; split; [reflexivity | reflexivity] |].
      right. exists n.
      assert (Hcn : child_name_of cfm tn (k, PList l) = Some n).
      { unfold child_name_of. cbn [fst snd]. now rewrite Hmk, Hname. }
      destruct (lookup n ct) as [old|].
      * destruct (truthy old).
        -- destruct old as [| | | | | |old_items]; try discriminate Hct.
           bind_inv Hct old' Hold. inversion Hct. eauto.
        -- inversion Hct. eauto.
      * inversion Hct. eauto.
    + intros H. inversion H. subst. split;
        [eexists; split; [reflexivity | reflexivity] | now left].
  - (* an object *)
    intros H. bind_inv H tables Htables. inversion H. subst.
    split; [eexists; split; [reflexivity | reflexivity] |].
    right. exists (default_child_name tn k), (PDict tables).
    split; reflexivity.
Qed.

Lemma visit_keys_cons rec tn cfm kv kvs st :
  visit_keys rec tn cfm (kv :: kvs) st
  = (st' <- visit_key rec tn cfm st kv ;; visit_keys rec tn cfm kvs st').
Proof. reflexivity. Qed.

Lemma visit_keys_app rec tn cfm kvs1 : forall kvs2 st,
  visit_keys rec tn cfm (kvs1 ++ kvs2) st
  = (st' <- visit_keys rec tn cfm kvs1 st ;; visit_keys rec tn cfm kvs2 st').
Proof.
  induction kvs1 as [|kv kvs1 IH]; intros kvs2 st; [reflexivity |].
  simpl. destruct (visit_key rec tn cfm st kv) as [st'|e]; simpl;
    [apply IH | reflexivity].
Qed.

Lemma visit_keys_inv rec tn cfm name (kvs : dict) :
  forall ctf ct ctf' ct',
    visit_keys rec tn cfm kvs (ctf, ct) = Ok (ctf', ct') ->
    (forall k x, In (k, x) ctf -> fresh_descr x = true) ->
    (forall k x, In (k, x) ctf' -> fresh_descr x = true)
    /\ (forall k, mem k ctf' = mem k ctf || mem k kvs)
    /\ (distinct (keys ct) = true -> distinct (keys ct') = true)
    /\ ((forall kv, In kv kvs -> child_name_of cfm tn kv <> Some name) ->
        lookup name ct' = lookup name ct).
Proof.
  induction kvs as [|[k v] kvs IH]; intros ctf ct ctf' ct' H Hfresh.
  - inversion H. subst. repeat split; auto.
    intros k. unfold mem at 3. simpl. now rewrite orb_false_r.
  - rewrite visit_keys_cons in H. bind_inv H st1 Hst1.
    destruct st1 as [ctf1 ct1].
    apply visit_key_Ok in Hst1. destruct Hst1 as [(x & -> & Hx) Hct].
    destruct (IH _ _ _ _ H) as (I1 & I2 & I3 & I4).
    { intros k' x' Hin. apply In_dict_set in Hin.
      destruct Hin as [[_ ->]|Hin]; eauto. }
    split; [exact I1 |]. split; [| split].
    + intros k'. rewrite I2, mem_dict_set. unfold mem at 4. simpl.
      destruct (String.eqb k' k); simpl;
        [now rewrite orb_true_r | reflexivity].
    + intros Hd. apply I3.
      destruct Hct as [->|(n & t & _ & ->)];
        [assumption | now apply distinct_dict_set].
    + intros Hnames. rewrite I4 by (intros kv Hin; apply Hnames; now right).
      destruct Hct as [->|(n & t & Hn & ->)]; [reflexivity |].
      apply lookup_dict_set_other. intros ->.
      apply (Hnames (k, v)); [now left | assumption].
Qed.

Lemma names_child_false fm tn name d cfm :
  bind_field_map fm tn = Ok cfm ->
  names_child fm tn name (PDict d) = false ->
  forall kv, In kv d -> child_name_of cfm tn kv <> Some name.
Proof.
  intros Hb Hn kv Hin Hc. unfold names_child in Hn. rewrite Hb in Hn.
  assert (Ht : existsb
                 (fun kv => match child_name_of cfm tn kv with
                            | Some n => String.eqb n name
                            | None => false
                            end) d = true).
  { apply existsb_exists. exists kv. split; [assumption |].
    rewrite Hc. apply String.eqb_refl. }
  congruence.
Qed.

(** The table an object gets under its own name, when none of its keys
    contributes a nested table of that name: one fresh descriptor for each
    key. *)
Lemma get_schema_own_table fm e name r :
  get_schema fm e name = Ok r ->
  names_child fm name name e = false ->
  exists d table,
    e = PDict d
    /\ lookup name r = Some (PDict table)
    /\ (forall k, mem k table = mem k d)
    /\ (forall k x, In (k, x) table -> fresh_descr x = true).
Proof.
  intros H Hn.
  destruct e as [| | | | | |d];
    try (simpl in H; destruct (bind_field_map fm name); discriminate H).
  rewrite get_schema_dict in H. bind_inv H cfm Hcfm. bind_inv H st Hst.
  destruct st as [ctf ct]. inversion H. subst r. clear H.
  destruct (visit_keys_inv _ _ _ name _ _ _ _ _ Hst) as (I1 & I2 & _ & I4).
  { intros k x []. }
  exists d, ctf. split; [reflexivity |]. split; [| split].
  - unfold assemble. cbn [fst snd].
    rewrite lookup_dict_update_None.
    + simpl. now rewrite String.eqb_refl.
    + rewrite I4; [reflexivity |]. now apply (names_child_false fm).
  - intros k. rewrite I2. reflexivity.
  - exact I1.
Qed.

(** ** The optional flag *)

Lemma set_optional_has (x x' : pyval) :
  set_optional x = Ok x' -> has_optional x' = true.
Proof.
  destruct x as [| | | | | |f]; try discriminate.
  intros H. inversion H. unfold has_optional.
  now rewrite lookup_dict_set_same.
Qed.

Lemma fresh_not_optional (x : pyval) :
  fresh_descr x = true -> has_optional x = false.
Proof.
  destruct x as [| | | | | |f]; try discriminate.
  unfold fresh_descr, has_optional, mem.
  now destruct (lookup "optional" f).
Qed.

Lemma any_missing_iff (k : string) (items : list pyval) :
  any_missing k items = true <-> exists e, In e items /\ key_in k e = false.
Proof.
  unfold any_missing. rewrite existsb_exists.
  split; intros [e [Hin H]]; exists e; split; auto.
  - now apply negb_true_iff.
  - now apply negb_true_iff.
Qed.

(** The union of the tables of the elements: the keys of all elements, each
    with a fresh descriptor. *)
Lemma collect_items_spec fm name (items : list pyval) :
  forall acc new,
    collect_items (get_schema fm) name items acc = Ok new ->
    forallb (fun e => negb (names_child fm name name e)) items = true ->
    (forall k x, In (k, x) acc -> fresh_descr x = true) ->
    (forall k x, In (k, x) new -> fresh_descr x = true)
    /\ (forall k, mem k new = mem k acc || existsb (key_in k) items).
Proof.
  induction items as [|e items IH]; intros acc new H Hn Hfresh.
  - inversion H. subst. split; [assumption |].
    intros k. simpl. now rewrite orb_false_r.
  - simpl in Hn. apply andb_true_iff in Hn. destruct Hn as [Hne Hn].
    apply negb_true_iff in Hne.
    cbn [collect_items] in H. bind_inv H tables Htables.
    destruct (get_schema_own_table _ _ _ _ Htables Hne)
      as (d & table & -> & Hl & Hmem & Hft).
    rewrite Hl in H.
    destruct (IH _ _ H Hn) as [I1 I2].
    { intros k x Hin. apply In_dict_update in Hin.
      destruct Hin as [Hin|Hin]; eauto. }
    split; [exact I1 |].
    intros k. rewrite I2, mem_dict_update, Hmem. simpl.
    now rewrite orb_assoc.
Qed.

(** The loop over the new keys, when no table of that name exists yet. *)
Lemma mark_new_spec (items : list pyval) (new : dict) :
  forall marked,
    mark_new items None new = Ok marked ->
    (forall k x, In (k, x) new -> fresh_descr x = true) ->
    (forall k, mem k marked = mem k new)
    /\ (forall k x', lookup k marked = Some x' ->
                     has_optional x' = any_missing k items).
Proof.
  induction new as [|[k1 v1] new IH]; intros marked H Hfresh.
  - inversion H. subst. split; [reflexivity | discriminate].
  - cbn [mark_new missing_in_old] in H. rewrite orb_false_r in H.
    bind_inv H v' Hv'. bind_inv H rest' Hrest. inversion H. subst marked.
    destruct (IH _ Hrest) as [I1 I2].
    { intros k x Hin. apply (Hfresh k). now right. }
    split.
    + intros k. unfold mem. simpl. destruct (String.eqb k k1);
        [reflexivity | apply I1].
    + intros k x'. simpl.
      destruct (String.eqb_spec k k1) as [E|Hne]; [| apply I2].
      subst k1. intros E. inversion E. subst x'.
      destruct (any_missing k items).
      * now apply (set_optional_has v1).
      * inversion Hv'. subst v'. apply fresh_not_optional.
        apply (Hfresh k). now left.
Qed.

(** X23.  For an array of objects under a key of an object, when no other
    key of the object and no key of the elements contributes a table of the
    same name, the table of the array has the keys of the elements as its
    fields, and a field carries [optional: true] exactly when some element
    of the array lacks the key. *)
Theorem optional_iff_absent :
  forall (field_map : pyval) (table_name : string) (before after : dict)
         (json_key : string) (items : list pyval) (name : string)
         (tables : dict),
    makes_child (PList items) = true ->
    table_name_of field_map table_name json_key = Ok (PStr name) ->
    names_child field_map table_name name (PDict (before ++ after)) = false ->
    forallb (fun e => negb (names_child field_map name name e)) items
    = true ->
    get_schema field_map
      (PDict (before ++ (json_key, PList items) :: after)) table_name
    = Ok tables ->
    exists table,
      lookup name tables = Some (PDict table)
      /\ (forall k, mem k table = existsb (key_in k) items)
      /\ (forall k descr,
             lookup k table = Some descr ->
             (has_optional descr = true
              <-> exists e, In e items /\ key_in k e = false)).
Proof.
  intros fm tn pre post key items name r Hmk Hname Hothers Hitems H.
  rewrite get_schema_dict in H. bind_inv H cfm Hcfm.
  unfold table_name_of in Hname. rewrite Hcfm in Hname. cbn [bind] in Hname.
  pose proof (names_child_false _ _ _ _ _ Hcfm Hothers) as Hnames.
  rewrite visit_keys_app in H. bind_inv H st Hst. bind_inv Hst st1 Hpre.
  rewrite visit_keys_cons in Hst. bind_inv Hst st2 Hkey.
  destruct st1 as [ctf1 ct1]. destruct st2 as [ctf2 ct2].
  destruct st as [ctf ct]. inversion H. subst r. clear H.
  destruct (visit_keys_inv _ _ _ name _ _ _ _ _ Hpre) as (F1 & _ & D1 & L1).
  { intros k x []. }
  specialize (D1 eq_refl).
  assert (Hct1 : lookup name ct1 = None).
  { rewrite L1; [reflexivity |].
    intros kv Hin. apply Hnames, in_or_app. now left. }
  unfold visit_key in Hkey. rewrite Hmk, Hname in Hkey. cbn [bind] in Hkey.
  unfold list_of_objects in Hkey. rewrite Hct1 in Hkey.
  bind_inv Hkey new Hnew. bind_inv Hkey marked Hmarked.
  cbn [bind] in Hkey. inversion Hkey. subst ctf2 ct2. clear Hkey.
  destruct (collect_items_spec _ _ _ _ _ Hnew Hitems) as [N1 N2].
  { intros k x []. }
  destruct (mark_new_spec _ _ _ Hmarked N1) as [M1 M2].
  destruct (visit_keys_inv _ _ _ name _ _ _ _ _ Hst) as (_ & _ & D2 & L2).
  { intros k x Hin. apply In_dict_set in Hin.
    destruct Hin as [[_ ->]|Hin]; [reflexivity | eauto]. }
  specialize (D2 (distinct_dict_set _ _ _ D1)).
  rewrite lookup_dict_set_same in L2.
  exists marked. split; [| split].
  - unfold assemble. cbn [fst snd].
    apply lookup_dict_update_Some; [assumption |].
    apply L2. intros kv Hin. apply Hnames, in_or_app. now right.
  - intros k. now rewrite M1, N2.
  - intros k descr Hl. rewrite (M2 k descr Hl). apply any_missing_iff.
Qed.


(** ** Arrays of flat objects: the walk returns *)

Lemma visit_keys_flat rec tn cfm (kvs : dict) :
  forallb (fun kv => negb (makes_child (snd kv))) kvs = true ->
  forall st, exists st', visit_keys rec tn cfm kvs st = Ok st'.
Proof.
  induction kvs as [|[k v] kvs IH]; intros Hflat st; [now exists st |].
  simpl in Hflat. apply andb_true_iff in Hflat. destruct Hflat as [Hv Hflat].
  apply negb_true_iff in Hv. destruct st as [ctf ct].
  rewrite visit_keys_cons.
  destruct v as [| b | z | m e | s | l | d]; try discriminate Hv;
    try (cbn [visit_key bind]; apply IH; assumption).
  rewrite visit_key_scalar_array by assumption. cbn [bind]. now apply IH.
Qed.

Lemma get_schema_flat fm e tn cfm :
  bind_field_map fm tn = Ok cfm ->
  flat_object e = true ->
  exists tables, get_schema fm e tn = Ok tables.
Proof.
  intros Hcfm Hflat. destruct e as [| | | | | |d]; try discriminate Hflat.
  rewrite get_schema_dict, Hcfm. cbn [bind].
  destruct (visit_keys_flat (get_schema fm) tn cfm d Hflat ([], []))
    as [st Hst].
  rewrite Hst. cbn [bind]. eauto.
Qed.

Lemma names_child_flat fm tn name e :
  flat_object e = true -> names_child fm tn name e = false.
Proof.
  intros Hflat. destruct e as [| | | | | |d]; try discriminate Hflat.
  unfold names_child. destruct (bind_field_map fm tn) as [cfm|x];
    [| reflexivity].
  simpl in Hflat. induction d as [|[k v] d IH]; [reflexivity |].
  simpl in Hflat. apply andb_true_iff in Hflat. destruct Hflat as [Hv Hflat].
  apply negb_true_iff in Hv. simpl. rewrite (IH Hflat), orb_false_r.
  unfold child_name_of. cbn [fst snd].
  destruct v as [| | | | | l | d']; try reflexivity.
  - now rewrite Hv.
  - discriminate Hv.
Qed.

Lemma collect_items_flat fm name cfm (items : list pyval) :
  bind_field_map fm name = Ok cfm ->
  forallb flat_object items = true ->
  forall acc, exists new, collect_items (get_schema fm) name items acc = Ok new.
Proof.
  intros Hcfm. induction items as [|e items IH]; intros Hflat acc;
    [now exists acc |].
  simpl in Hflat. apply andb_true_iff in Hflat. destruct Hflat as [He Hflat].
  destruct (get_schema_flat fm e name cfm Hcfm He) as [tables Ht].
  destruct (get_schema_own_table fm e name tables Ht
              (names_child_flat fm name name e He))
    as (d & table & _ & Hl & _).
  cbn [collect_items]. rewrite Ht. cbn [bind]. rewrite Hl.
  now apply IH.
Qed.

Lemma mark_new_returns items old (new : dict) :
  (forall k x, In (k, x) new -> fresh_descr x = true) ->
  exists marked, mark_new items old new = Ok marked.
Proof.
  induction new as [|[k v] new IH]; intros Hfresh; [now exists [] |].
  destruct IH as [rest Hrest].
  { intros k' x Hin. apply (Hfresh k'). now right. }
  assert (Hv : fresh_descr v = true) by (apply (Hfresh k); now left).
  destruct v as [| | | | | |f]; try discriminate Hv.
  cbn [mark_new]. rewrite Hrest.
  destruct (any_missing k items || missing_in_old old k);
    cbn [set_optional bind]; eauto.
Qed.

(** With a field map that names the table, [get_schema] returns on an object
    whose one key holds a non-empty array of flat objects. *)
Lemma get_schema_array_returns fm tn key items name cfm :
  makes_child (PList items) = true ->
  table_name_of fm tn key = Ok (PStr name) ->
  bind_field_map fm name = Ok cfm ->
  forallb flat_object items = true ->
  exists tables, get_schema fm (PDict [(key, PList items)]) tn = Ok tables.
Proof.
  intros Hmk Hname Hcfm Hflat.
  unfold table_name_of in Hname. bind_inv Hname cfm0 Hcfm0.
  rewrite get_schema_dict, Hcfm0. cbn [bind visit_keys].
  unfold visit_key. rewrite Hmk, Hname. cbn [bind].
  unfold list_of_objects. cbn [lookup].
  destruct (collect_items_flat fm name cfm items Hcfm Hflat [])
    as [new Hnew].
  rewrite Hnew. cbn [bind].
  assert (Hitems : forallb (fun e => negb (names_child fm name name e)) items
                   = true).
  { apply forallb_forall. intros e Hin. apply negb_true_iff.
    apply names_child_flat.
    now apply (proj1 (forallb_forall flat_object items) Hflat). }
  destruct (collect_items_spec fm name items [] new Hnew Hitems) as [N1 _].
  { intros k x []. }
  destruct (mark_new_returns items None new N1) as [marked Hmarked].
  rewrite Hmarked. cbn [bind]. eauto.
Qed.

(** * Further properties of [merge] *)

(** X1.  [merge] returns exactly when the two trees clash at no path. *)
Theorem merge_returns_iff :
  forall (a b : dict) (path : list string),
    well_formed (PDict b) = true ->
    (outcome (merge a b path) = Ok tt
     <-> forall p av bv,
           get_path a p = Some av -> get_path b p = Some bv ->
           clash av bv = false).
Proof.
  intros a b path Hw. split.
  - intros Hok p av bv Ha Hb.
    destruct (clash av bv) eqn:Hc; [| reflexivity].
    destruct (merge_raises (PDict b) b eq_refl Hw a path p av bv Ha Hb Hc)
      as [e He].
    unfold merge in Hok. congruence.
  - intros Hno. unfold merge, outcome.
    destruct (merge_keys merge_value path b a) as [[a' b'] r] eqn:Hm.
    destruct r as [[]|e]; [reflexivity |].
    destruct (merge_raise_sound (PDict b) b eq_refl Hw a path a' b' e Hm)
      as (q & av & bv & Ha & Hb & Hc & _).
    rewrite (Hno q av bv Ha Hb) in Hc. discriminate Hc.
Qed.

Lemma merge_returns_iff_witness :
  well_formed (PDict [("a", PDict [("type", PStr "Number")]); ("n", PInt 1)])
  = true
  /\ (outcome (merge [("a", PStr "An example field"); ("n", PBool true)]
                 [("a", PDict [("type", PStr "Number")]); ("n", PInt 1)] [])
      = Ok tt
      <-> forall p av bv,
            get_path [("a", PStr "An example field"); ("n", PBool true)] p
            = Some av ->
            get_path [("a", PDict [("type", PStr "Number")]); ("n", PInt 1)] p
            = Some bv ->
            clash av bv = false).
Proof.
  split; [reflexivity |].
  apply (merge_returns_iff
           [("a", PStr "An example field"); ("n", PBool true)]
           [("a", PDict [("type", PStr "Number")]); ("n", PInt 1)] []).
  reflexivity.
Defined.

Section AppendFacts.
Context {A : Type}.
Implicit Types (d e : list (string * A)) (k : string) (v : A).

Lemma dict_set_new d k v :
  lookup k d = None -> dict_set d k v = d ++ [(k, v)].
Proof.
  induction d as [|[k1 v1] d IH]; simpl; [reflexivity |].
  destruct (String.eqb k k1); [discriminate |].
  intros H. now rewrite IH.
Qed.

Lemma keys_dict_set_present d k v :
  mem k d = true -> keys (dict_set d k v) = keys d.
Proof.
  unfold mem. induction d as [|[k1 v1] d IH]; simpl; [discriminate |].
  destruct (String.eqb k k1); [reflexivity |].
  intros H. simpl. f_equal. now apply IH.
Qed.

Lemma lookup_app_None d e k :
  lookup k d = None -> lookup k (d ++ e) = lookup k e.
Proof.
  induction d as [|[k1 v1] d IH]; simpl; [reflexivity |].
  destruct (String.eqb k k1); [discriminate | assumption].
Qed.
End AppendFacts.

(** X2.  When [a] has none of the keys of [b], the merge returns and appends
    the items of [b] to [a], in the order of [b]; [b] is left as it was. *)
Theorem merge_disjoint :
  forall (b a : dict) (path : list string),
    distinct (keys b) = true ->
    (forall k, In k (keys b) -> lookup k a = None) ->
    merge a b path = (a ++ b, b, Ok tt).
Proof.
  unfold merge.
  induction b as [|[key bv] rest IH]; intros a path Hd Hnew.
  - simpl. now rewrite app_nil_r.
  - simpl keys in Hd. apply distinct_cons in Hd. destruct Hd as [Hnot Hd].
    assert (Hkey : lookup key a = None) by (apply Hnew; now left).
    rewrite merge_keys_cons. unfold merge_key. rewrite Hkey.
    rewrite (dict_set_new a key bv Hkey).
    rewrite (IH (a ++ [(key, bv)]) path Hd).
    + now rewrite <- app_assoc.
    + intros k Hin. rewrite lookup_app_None by (apply Hnew; now right).
      simpl. destruct (String.eqb_spec k key) as [E|Hne]; [| reflexivity].
      subst k. contradiction.
Qed.

Lemma merge_disjoint_witness :
  distinct (keys [("Items", PDict [("id", PStr "The id")]); ("n", PInt 1)])
  = true
  /\ (forall k,
         In k (keys [("Items", PDict [("id", PStr "The id")]); ("n", PInt 1)]) ->
         lookup k [(".", PDict [("items", descr_type "Number")])] = None)
  /\ merge [(".", PDict [("items", descr_type "Number")])]
       [("Items", PDict [("id", PStr "The id")]); ("n", PInt 1)] []
     = ([(".", PDict [("items", descr_type "Number")])]
        ++ [("Items", PDict [("id", PStr "The id")]); ("n", PInt 1)],
        [("Items", PDict [("id", PStr "The id")]); ("n", PInt 1)], Ok tt).
Proof.
  assert (H : forall k,
             In k (keys [("Items", PDict [("id", PStr "The id")]);
                         ("n", PInt 1)]) ->
             lookup k [(".", PDict [("items", descr_type "Number")])] = None).
  { intros k [E|[E|[]]]; subst k; reflexivity. }
  split; [reflexivity |]. split; [exact H |].
  apply (merge_disjoint
           [("Items", PDict [("id", PStr "The id")]); ("n", PInt 1)]
           [(".", PDict [("items", descr_type "Number")])] []);
    [reflexivity | exact H].
Defined.

(** X3.  Whatever the outcome, nothing under a key that [b] does not have
    changes in [a]. *)
Theorem merge_untouched_key :
  forall (a b : dict) (path : list string) (k : string) (p : list string),
    ~ In k (keys b) ->
    get_path (a_after (merge a b path)) (k :: p) = get_path a (k :: p).
Proof.
  intros a b path k p Hnot. apply get_path_lookup_eq.
  unfold merge. now apply merge_keys_frame.
Qed.

Lemma merge_untouched_key_witness :
  ~ In "x" (keys [("n", PInt 5); ("a", PInt 2)])
  /\ get_path
       (a_after (merge [("a", PInt 1); ("x", PDict [("y", PStr "kept")])]
                   [("n", PInt 5); ("a", PInt 2)] []))
       ["x"; "y"]
     = get_path [("a", PInt 1); ("x", PDict [("y", PStr "kept")])] ["x"; "y"].
Proof.
  assert (H : ~ In "x" (keys [("n", PInt 5); ("a", PInt 2)])).
  { intros [E|[E|[]]]; discriminate E. }
  split; [exact H |].
  apply (merge_untouched_key
           [("a", PInt 1); ("x", PDict [("y", PStr "kept")])]
           [("n", PInt 5); ("a", PInt 2)] [] "x" ["y"]).
  exact H.
Defined.

Lemma merge_key_keys rec path a key bv :
  keys (a_after (merge_key rec path a (key, bv)))
  = keys a ++ (if mem key a then [] else [key]).
Proof.
  assert (Hpresent : forall x v, lookup key a = Some x ->
            keys (dict_set a key v) = keys a ++ []).
  { intros x v Hx. rewrite app_nil_r. apply keys_dict_set_present.
    unfold mem. now rewrite Hx. }
  destruct (merge_key_step rec path a key bv)
    as [Hn | ad bd ad' bv' r Hl Hv Hr | av Hl Hd He
        | ad s Hl Hv | s bd Hl Hv | av Hl Hc];
    unfold a_after, mem; cbn [fst]; rewrite ?Hn, ?Hl; eauto.
  - rewrite (dict_set_new a key bv Hn). unfold keys. now rewrite map_app.
  - now rewrite app_nil_r.
  - now rewrite app_nil_r.
Qed.

Lemma merge_keys_appended rec path (b : dict) :
  forall a,
    distinct (keys b) = true ->
    outcome (merge_keys rec path b a) = Ok tt ->
    keys (a_after (merge_keys rec path b a))
    = keys a ++ filter (fun k => negb (mem k a)) (keys b).
Proof.
  induction b as [|[key bv] rest IH]; intros a Hd Hok.
  - simpl. now rewrite app_nil_r.
  - simpl keys in Hd. apply distinct_cons in Hd. destruct Hd as [Hnot Hd].
    rewrite merge_keys_cons in *.
    pose proof (merge_key_keys rec path a key bv) as Hkeys.
    pose proof (merge_key_frame rec path a key bv) as Hframe.
    destruct (merge_key rec path a (key, bv)) as [[a1 bv1] r1].
    unfold a_after in Hkeys, Hframe. simpl in Hkeys, Hframe.
    destruct r1 as [[]|e1]; [| discriminate Hok].
    specialize (IH a1 Hd). unfold a_after, outcome in *.
    destruct (merge_keys rec path rest a1) as [[a2 rest2] r2].
    simpl in *. rewrite (IH Hok), Hkeys.
    assert (Hfilter : filter (fun k => negb (mem k a1)) (keys rest)
                      = filter (fun k => negb (mem k a)) (keys rest)).
    { apply filter_ext_in. intros k Hin. unfold mem.
      rewrite Hframe; [reflexivity |]. intros ->. contradiction. }
    rewrite Hfilter.
    destruct (mem key a); simpl; [now rewrite app_nil_r |].
    now rewrite <- app_assoc.
Qed.

(** X4.  A merge that returns keeps the keys of [a] in their order and
    appends the keys of [b] that [a] did not have, in the order of [b]. *)
Theorem merge_key_order :
  forall (a b : dict) (path : list string),
    distinct (keys b) = true ->
    outcome (merge a b path) = Ok tt ->
    keys (a_after (merge a b path))
    = keys a ++ filter (fun k => negb (mem k a)) (keys b).
Proof.
  intros a b path Hd Hok. unfold merge in *.
  now apply merge_keys_appended.
Qed.

Lemma merge_key_order_witness :
  distinct (keys [("n", PInt 5); ("a", PStr "text"); ("m", PNone)]) = true
  /\ outcome (merge [("a", PDict []); ("z", PInt 0)]
                [("n", PInt 5); ("a", PStr "text"); ("m", PNone)] []) = Ok tt
  /\ keys (a_after (merge [("a", PDict []); ("z", PInt 0)]
                      [("n", PInt 5); ("a", PStr "text"); ("m", PNone)] []))
     = keys [("a", PDict []); ("z", PInt 0)]
       ++ filter (fun k => negb (mem k [("a", PDict []); ("z", PInt 0)]))
            (keys [("n", PInt 5); ("a", PStr "text"); ("m", PNone)]).
Proof.
  split; [reflexivity |]. split; [reflexivity |].
  apply (merge_key_order [("a", PDict []); ("z", PInt 0)]
           [("n", PInt 5); ("a", PStr "text"); ("m", PNone)] []);
    reflexivity.
Defined.

(** The value under a key after one iteration depends on [a] through the
    value under that key only. *)
Lemma merge_key_local rec path a a1 key bv :
  lookup key a1 = lookup key a ->
  lookup key (a_after (merge_key rec path a1 (key, bv)))
  = lookup key (a_after (merge_key rec path a (key, bv))).
Proof.
  intros E. unfold merge_key, a_after. rewrite E.
  destruct (lookup key a) as [av|] eqn:Ha;
    [| cbn [fst]; now rewrite !lookup_dict_set_same].
  destruct av as [| | | | sa | | ad]; destruct bv as [| | | | sb | | bd];
    try (destruct (rec (PDict bd) ad (path ++ [key])) as [[ad' bv'] r];
         cbn [fst]; now rewrite !lookup_dict_set_same);
    match goal with
    | |- context [if py_eq ?x ?y then _ else _] =>
        destruct (py_eq x y); cbn [fst];
        rewrite ?lookup_dict_set_same; congruence
    end.
Qed.

(** In a merge that returns, the value under a key of [b] is the one its own
    iteration leaves. *)
Lemma merge_keys_at rec path (b : dict) :
  forall a k bv,
    distinct (keys b) = true ->
    lookup k b = Some bv ->
    outcome (merge_keys rec path b a) = Ok tt ->
    lookup k (a_after (merge_keys rec path b a))
    = lookup k (a_after (merge_key rec path a (k, bv))).
Proof.
  induction b as [|[key v] rest IH]; intros a k bv Hd Hl Hok;
    [discriminate Hl |].
  simpl keys in Hd. apply distinct_cons in Hd. destruct Hd as [Hnot Hd].
  rewrite merge_keys_cons in *. simpl in Hl.
  destruct (String.eqb_spec k key) as [E|Hne].
  - subst k. inversion Hl. subst v. clear Hl.
    pose proof (merge_keys_frame rec path rest) as Hrest.
    destruct (merge_key rec path a (key, bv)) as [[a1 bv1] r1].
    destruct r1 as [[]|e1]; [| discriminate Hok].
    specialize (Hrest a1 key Hnot). unfold a_after in *.
    destruct (merge_keys rec path rest a1) as [[a2 rest2] r2].
    exact Hrest.
  - pose proof (merge_key_frame rec path a key v k Hne) as Hframe.
    destruct (merge_key rec path a (key, v)) as [[a1 v1] r1].
    unfold a_after in Hframe. simpl in Hframe.
    destruct r1 as [[]|e1]; [| discriminate Hok].
    specialize (IH a1 k bv Hd Hl).
    rewrite <- (merge_key_local rec path a a1 k bv Hframe).
    unfold a_after, outcome in *.
    destruct (merge_keys rec path rest a1) as [[a2 rest2] r2].
    simpl in *. now apply IH.
Qed.

(** Rules 4 and 5 at a key of the two trees. *)
Lemma merge_describes_key :
  forall (a b : dict) (path : list string) (k s : string) (d : dict),
    distinct (keys b) = true ->
    outcome (merge a b path) = Ok tt ->
    (lookup k a = Some (PDict d) /\ lookup k b = Some (PStr s))
    \/ (lookup k a = Some (PStr s) /\ lookup k b = Some (PDict d)) ->
    lookup k (a_after (merge a b path))
    = Some (PDict (dict_set d "description" (PStr s))).
Proof.
  intros a b path k s d Hd Hok [[Ha Hb]|[Ha Hb]]; unfold merge in *.
  - rewrite (merge_keys_at _ _ b a k (PStr s) Hd Hb Hok).
    unfold merge_key, a_after. rewrite Ha. cbn [py_eq fst].
    apply lookup_dict_set_same.
  - rewrite (merge_keys_at _ _ b a k (PDict d) Hd Hb Hok).
    unfold merge_key, a_after. rewrite Ha. cbn [py_eq fst].
    apply lookup_dict_set_same.
Qed.

(** A string on one side and a mapping on the other side of a key are
    reconciled the same way in both directions: the merged value is the
    mapping with the string as its [description]. *)
Theorem merge_shorthand :
  forall (a b : dict) (path : list string) (k s : string) (d : dict),
    distinct (keys b) = true ->
    outcome (merge a b path) = Ok tt ->
    (lookup k a = Some (PDict d) /\ lookup k b = Some (PStr s))
    \/ (lookup k a = Some (PStr s) /\ lookup k b = Some (PDict d)) ->
    lookup k (a_after (merge a b path))
    = Some (PDict (dict_set d "description" (PStr s))).
Proof.
  exact merge_describes_key.
Qed.

Lemma merge_shorthand_witness :
  distinct (keys [("a", PDict [("type", PStr "Number")])]) = true
  /\ outcome (merge [("a", PStr "An example field")]
                [("a", PDict [("type", PStr "Number")])] []) = Ok tt
  /\ lookup "a"
       (a_after (merge [("a", PStr "An example field")]
                   [("a", PDict [("type", PStr "Number")])] []))
     = Some (PDict (dict_set [("type", PStr "Number")] "description"
                      (PStr "An example field"))).
Proof.
  split; [reflexivity |]. split; [reflexivity |].
  apply (merge_shorthand [("a", PStr "An example field")]
           [("a", PDict [("type", PStr "Number")])] [] "a"
           "An example field" [("type", PStr "Number")]);
    [reflexivity | reflexivity |].
  right. split; reflexivity.
Defined.

(** [b] is written only where [a] holds a string and [b] a mapping. *)
Lemma merge_keys_leaves_b (b : dict) :
  Forall (fun kv =>
            forall d, snd kv = PDict d -> well_formed (snd kv) = true ->
            forall a path,
              (forall p s bd, get_path a p = Some (PStr s) ->
                              get_path d p = Some (PDict bd) -> False) ->
              b_after (merge_keys merge_value path d a) = d) b ->
  distinct (keys b) = true ->
  forallb (fun kv => well_formed (snd kv)) b = true ->
  forall a path,
    (forall p s bd, get_path a p = Some (PStr s) ->
                    get_path b p = Some (PDict bd) -> False) ->
    b_after (merge_keys merge_value path b a) = b.
Proof.
  induction 1 as [|[key bv] rest Hbv _ IH]; intros Hd Hw a path Hno;
    [reflexivity |].
  simpl keys in Hd. apply distinct_cons in Hd. destruct Hd as [Hnot Hd].
  simpl in Hw. apply andb_true_iff in Hw. destruct Hw as [Hwv Hwr].
  rewrite merge_keys_cons.
  assert (Hstep : b_after (merge_key merge_value path a (key, bv)) = bv).
  { destruct (merge_key_step merge_value path a key bv)
      as [Hn | ad bd ad' bv' r Hl Hv Hr | av Hl Hdd He
          | ad s Hl Hv | s bd Hl Hv | av Hl Hc];
      unfold b_after; cbn [fst snd]; try reflexivity.
    - subst bv. rewrite merge_value_dict in Hr.
      assert (Hnest : b_after (merge_keys merge_value (path ++ [key]) bd ad)
                      = bd).
      { apply (Hbv bd eq_refl Hwv). intros [|k q] s bd0 Ha Hb;
          [discriminate Ha |].
        apply (Hno (key :: k :: q) s bd0).
        - now rewrite (get_path_nested a ad).
        - rewrite get_path_here. rewrite (get_path_nested _ bd); auto.
          simpl. now rewrite String.eqb_refl. }
      unfold b_after in Hnest.
      destruct (merge_keys merge_value (path ++ [key]) bd ad)
        as [[ad2 bd2] r2].
      simpl in Hnest. inversion Hr. now subst.
    - exfalso. subst bv. apply (Hno [key] s bd).
      + now rewrite get_path_one.
      + rewrite get_path_one. simpl. now rewrite String.eqb_refl. }
  pose proof (merge_key_frame merge_value path a key bv) as Hframe.
  destruct (merge_key merge_value path a (key, bv)) as [[a1 bv1] r1].
  unfold b_after, a_after in Hstep, Hframe. simpl in Hstep, Hframe.
  subst bv1. destruct r1 as [[]|e1]; [| reflexivity].
  assert (Hrest : b_after (merge_keys merge_value path rest a1) = rest).
  { apply (IH Hd Hwr). intros [|k q] s bd Ha Hb; [discriminate Ha |].
    assert (Hne : k <> key).
    { intros ->. apply Hnot. eapply get_path_keys; eauto. }
    apply (Hno (k :: q) s bd).
    - rewrite <- Ha. apply get_path_lookup_eq. symmetry. now apply Hframe.
    - now rewrite get_path_skip. }
  unfold b_after in *.
  destruct (merge_keys merge_value path rest a1) as [[a2 rest2] r2].
  simpl in *. now subst rest2.
Qed.

Lemma merge_value_leaves_b (v : pyval) :
  forall d, v = PDict d -> well_formed v = true ->
  forall a path,
    (forall p s bd, get_path a p = Some (PStr s) ->
                    get_path d p = Some (PDict bd) -> False) ->
    b_after (merge_keys merge_value path d a) = d.
Proof.
  induction v as [| b | z | m e | s | l IH | d0 IH] using pyval_ind;
    intros d E Hw; try discriminate E.
  inversion E. subst d0. clear E.
  simpl in Hw. apply andb_true_iff in Hw. destruct Hw as [Hd Hw].
  now apply merge_keys_leaves_b.
Qed.

(** X5.  [merge] writes to its second argument only where [a] holds a string
    and [b] a mapping: when there is no such path, [b] is left as it was,
    whether the call returns or raises. *)
Theorem merge_leaves_b :
  forall (a b : dict) (path : list string),
    well_formed (PDict b) = true ->
    (forall p s bd,
        get_path a p = Some (PStr s) -> get_path b p = Some (PDict bd) ->
        False) ->
    b_after (merge a b path) = b.
Proof.
  intros a b path Hw Hno. unfold merge.
  now apply (merge_value_leaves_b (PDict b) b eq_refl Hw).
Qed.

Lemma merge_leaves_b_witness :
  well_formed (PDict [("n", PInt 5); ("a", PInt 2)]) = true
  /\ (forall p s bd,
         get_path [("a", PInt 1)] p = Some (PStr s) ->
         get_path [("n", PInt 5); ("a", PInt 2)] p = Some (PDict bd) -> False)
  /\ b_after (merge [("a", PInt 1)] [("n", PInt 5); ("a", PInt 2)] [])
     = [("n", PInt 5); ("a", PInt 2)].
Proof.
  assert (H : forall p s bd,
             get_path [("a", PInt 1)] p = Some (PStr s) ->
             get_path [("n", PInt 5); ("a", PInt 2)] p = Some (PDict bd) ->
             False).
  { intros [|k [|k' q]] s bd Ha Hb; cbn [get_path lookup] in Ha.
    - discriminate Ha.
    - destruct (String.eqb k "a"); discriminate Ha.
    - destruct (String.eqb k "a"); discriminate Ha. }
  split; [reflexivity |]. split; [exact H |].
  apply (merge_leaves_b [("a", PInt 1)] [("n", PInt 5); ("a", PInt 2)] []);
    [reflexivity | exact H].
Defined.

(** * Further properties of [get_schema] *)

Lemma has_object_array_dict (d : dict) :
  has_object_array (PDict d)
  = existsb (fun kv =>
               match snd kv with
               | PDict _ => has_object_array (snd kv)
               | PList _ => makes_child (snd kv)
               | _ => false
               end) d.
Proof. reflexivity. Qed.

(** The walk without the local [current_table_field_map]. *)
Lemma visit_keys_unbound fm tn (kvs : dict) :
  Forall (fun kv =>
            forall d tn', snd kv = PDict d ->
              (has_object_array (snd kv) = true ->
               get_schema fm (snd kv) tn' = Raise UnboundLocalError)
              /\ (has_object_array (snd kv) = false ->
                  exists r, get_schema fm (snd kv) tn' = Ok r)) kvs ->
  forall st,
    (has_object_array (PDict kvs) = true ->
     visit_keys (get_schema fm) tn None kvs st = Raise UnboundLocalError)
    /\ (has_object_array (PDict kvs) = false ->
        exists st', visit_keys (get_schema fm) tn None kvs st = Ok st').
Proof.
  induction 1 as [|[k v] kvs Hv _ IH]; intros st.
  - split; [discriminate | intros _; now exists st].
  - rewrite has_object_array_dict. cbn [existsb snd].
    rewrite <- has_object_array_dict. rewrite visit_keys_cons.
    destruct st as [ctf ct].
    destruct v as [| b | z | m e | s | l | d];
      try (cbn [visit_key bind orb]; apply IH).
    + (* an array *)
      destruct (makes_child (PList l)) eqn:Hmk.
      * split; [| discriminate]. intros _.
        unfold visit_key. rewrite Hmk. reflexivity.
      * rewrite visit_key_scalar_array by assumption. cbn [bind orb].
        apply IH.
    + (* an object *)
      destruct (Hv d (default_child_name tn k) eq_refl) as [Hraise Hret].
      cbn [snd] in Hraise, Hret. unfold visit_key.
      destruct (has_object_array (PDict d)).
      * split; [| discriminate]. intros _.
        now rewrite (Hraise eq_refl).
      * destruct (Hret eq_refl) as [r Hr]. rewrite Hr. cbn [bind orb].
        apply IH.
Qed.

Lemma get_schema_unbound fm (v : pyval) :
  truthy fm = false ->
  forall d tn, v = PDict d ->
    (has_object_array v = true ->
     get_schema fm v tn = Raise UnboundLocalError)
    /\ (has_object_array v = false -> exists r, get_schema fm v tn = Ok r).
Proof.
  intros Hfm.
  induction v as [| b | z | m e | s | l IH | d0 IH] using pyval_ind;
    intros d tn E; try discriminate E.
  clear E. rewrite get_schema_dict. unfold bind_field_map. rewrite Hfm.
  cbn [bind].
  destruct (visit_keys_unbound fm tn d0 IH ([], [])) as [Hraise Hret].
  split; intros Hh.
  - now rewrite (Hraise Hh).
  - destruct (Hret Hh) as [st Hst]. rewrite Hst. cbn [bind]. eauto.
Qed.

(** X7.  Without a field map ([None], or an empty one), [get_schema] on an
    object raises [UnboundLocalError] when an array of objects is reached
    through nested objects, and returns otherwise. *)
Theorem get_schema_without_field_map :
  forall (field_map : pyval) (d : dict) (table_name : string),
    truthy field_map = false ->
    (has_object_array (PDict d) = true ->
     get_schema field_map (PDict d) table_name = Raise UnboundLocalError)
    /\ (has_object_array (PDict d) = false ->
        exists tables, get_schema field_map (PDict d) table_name = Ok tables).
Proof.
  intros fm d tn Hfm. now apply (get_schema_unbound fm (PDict d) Hfm d tn).
Qed.


Section ShapeFacts.
Variable P : pyval -> Prop.

Lemma Forall_dict_set (d : dict) k v :
  Forall (fun kv => P (snd kv)) d -> P v ->
  Forall (fun kv => P (snd kv)) (dict_set d k v).
Proof.
  intros Hd Hv. induction Hd as [|[k1 v1] d H1 Hd IH]; simpl.
  - constructor; [exact Hv | constructor].
  - destruct (String.eqb k k1); constructor; auto.
Qed.

Lemma Forall_dict_update (e : dict) : forall d : dict,
  Forall (fun kv => P (snd kv)) d -> Forall (fun kv => P (snd kv)) e ->
  Forall (fun kv => P (snd kv)) (dict_update d e).
Proof.
  induction e as [|[k v] e IH]; intros d Hd He; [exact Hd |].
  inversion He; subst. rewrite dict_update_cons.
  apply IH; [| assumption]. now apply Forall_dict_set.
Qed.
End ShapeFacts.

Lemma dict_update_head (e : dict) : forall (d : dict) k v,
  exists v' d', dict_update ((k, v) :: d) e = (k, v') :: d'.
Proof.
  induction e as [|[k1 v1] e IH]; intros d k v.
  - exists v, d. reflexivity.
  - rewrite dict_update_cons. simpl.
    destruct (String.eqb k1 k); apply IH.
Qed.

(** Every nested table a key stores is a mapping. *)
Lemma visit_key_tables rec tn cfm ctf ct kv ctf' ct' :
  visit_key rec tn cfm (ctf, ct) kv = Ok (ctf', ct') ->
  Forall (fun x => is_dict (snd x) = true) ct ->
  Forall (fun x => is_dict (snd x) = true) ct'.
Proof.
  destruct kv as [k v]. unfold visit_key.
  destruct v as [| b | z | m e | s | l | d];
    try (intros H Hct; inversion H; subst; exact Hct).
  - destruct (makes_child (PList l)).
    + intros H Hct. bind_inv H name Hname.
      destruct name as [| | | | n | |]; try discriminate H.
      unfold list_of_objects in H.
      bind_inv H new Hnew. bind_inv H marked Hmarked.
      bind_inv H ct2 Hct2. inversion H. subst ctf' ct'. clear H.
      destruct (lookup n ct) as [old|].
      * destruct (truthy old).
        -- destruct old as [| | | | | |old_items]; try discriminate Hct2.
           bind_inv Hct2 old' Hold. inversion Hct2.
           now apply (Forall_dict_set (fun v => is_dict v = true)).
        -- inversion Hct2. now apply (Forall_dict_set (fun v => is_dict v = true)).
      * inversion Hct2. now apply (Forall_dict_set (fun v => is_dict v = true)).
    + intros H Hct. inversion H. subst. exact Hct.
  - intros H Hct. bind_inv H tables Htables. inversion H. subst.
    now apply (Forall_dict_set (fun v => is_dict v = true)).
Qed.

Lemma visit_keys_tables rec tn cfm (kvs : dict) :
  forall ctf ct ctf' ct',
    visit_keys rec tn cfm kvs (ctf, ct) = Ok (ctf', ct') ->
    Forall (fun x => is_dict (snd x) = true) ct ->
    Forall (fun x => is_dict (snd x) = true) ct'.
Proof.
  induction kvs as [|kv kvs IH]; intros ctf ct ctf' ct' H Hct.
  - inversion H. now subst.
  - rewrite visit_keys_cons in H. bind_inv H st1 Hst1.
    destruct st1 as [ctf1 ct1].
    apply (IH _ _ _ _ H). now apply (visit_key_tables _ _ _ _ _ _ _ _ Hst1).
Qed.

(** The shape of every result of [get_schema]. *)
Lemma get_schema_Ok_head :
  forall (field_map json_object : pyval) (table_name : string)
         (tables : dict),
    get_schema field_map json_object table_name = Ok tables ->
    exists fields rest,
      tables = (table_name, PDict fields) :: rest
      /\ Forall (fun kv => is_dict (snd kv) = true) rest.
Proof.
  intros fm j tn r H.
  destruct j as [| | | | | |d];
    try (simpl in H; destruct (bind_field_map fm tn); discriminate H).
  rewrite get_schema_dict in H. bind_inv H cfm Hcfm. bind_inv H st Hst.
  destruct st as [ctf ct]. inversion H. subst r. clear H.
  pose proof (visit_keys_tables _ _ _ _ _ _ _ _ Hst (Forall_nil _)) as Hct.
  unfold assemble. cbn [fst snd].
  assert (Hall : Forall (fun kv => is_dict (snd kv) = true)
                   (dict_update [(tn, PDict ctf)] ct)).
  { apply (Forall_dict_update (fun v => is_dict v = true)); [| exact Hct].
    constructor; [reflexivity | constructor]. }
  destruct (dict_update_head ct [] tn (PDict ctf)) as (v' & rest & E).
  rewrite E in *. inversion Hall as [|x l Hv Hrest]; subst.
  destruct v' as [| | | | | |fields]; try discriminate Hv.
  now exists fields, rest.
Qed.


(** X8.  When [get_schema] returns, the result is not empty, its first key
    is the given table name, and every value of the result, that of the
    first key included, is a mapping. *)
Theorem get_schema_table_first :
  forall (field_map json_object : pyval) (table_name : string)
         (tables : dict),
    get_schema field_map json_object table_name = Ok tables ->
    exists fields rest,
      tables = (table_name, PDict fields) :: rest
      /\ Forall (fun kv => is_dict (snd kv) = true) rest.
Proof.
  exact get_schema_Ok_head.
Qed.


(** The field a key adds to the table. *)
Lemma visit_key_descr rec tn cfm ctf ct kv ctf' ct' :
  visit_key rec tn cfm (ctf, ct) kv = Ok (ctf', ct') ->
  ctf' = dict_set ctf (fst kv) (field_descriptor cfm tn kv).
Proof.
  destruct kv as [k v]. unfold visit_key, field_descriptor. cbn [fst snd].
  destruct v as [| b | z | m e | s | l | d];
    try (intros H; inversion H; reflexivity).
  - destruct (makes_child (PList l)) eqn:Hmk.
    + intros H. bind_inv H name Hname.
      destruct name as [| | | | n | |]; try discriminate H.
      unfold child_name_of. cbn [fst snd]. rewrite Hmk, Hname.
      unfold list_of_objects in H.
      bind_inv H new Hnew. bind_inv H marked Hmarked.
      bind_inv H ct2 Hct2. now inversion H.
    + intros H. now inversion H.
  - intros H. bind_inv H tables Htables. now inversion H.
Qed.

Lemma visit_keys_fields rec tn cfm (kvs : dict) :
  forall ctf ct ctf' ct',
    visit_keys rec tn cfm kvs (ctf, ct) = Ok (ctf', ct') ->
    distinct (keys kvs) = true ->
    (forall k, In k (keys kvs) -> lookup k ctf = None) ->
    ctf' = ctf ++ map (fun kv => (fst kv, field_descriptor cfm tn kv)) kvs.
Proof.
  induction kvs as [|[k v] kvs IH]; intros ctf ct ctf' ct' H Hd Hnew.
  - inversion H. subst. simpl. now rewrite app_nil_r.
  - simpl keys in Hd. apply distinct_cons in Hd. destruct Hd as [Hnot Hd].
    rewrite visit_keys_cons in H. bind_inv H st1 Hst1.
    destruct st1 as [ctf1 ct1].
    apply visit_key_descr in Hst1. cbn [fst] in Hst1.
    rewrite dict_set_new in Hst1 by (apply Hnew; now left).
    rewrite (IH _ _ _ _ H Hd).
    + subst ctf1. now rewrite <- app_assoc.
    + intros k' Hin. subst ctf1.
      rewrite lookup_app_None by (apply Hnew; now right).
      simpl. destruct (String.eqb_spec k' k) as [E|Hne]; [| reflexivity].
      subst k'. contradiction.
Qed.

(** The table of an object, field by field. *)
Lemma get_schema_own_fields :
  forall (field_map : pyval) (d : dict) (table_name : string)
         (current_table_field_map : option pyval) (tables : dict),
    get_schema field_map (PDict d) table_name = Ok tables ->
    bind_field_map field_map table_name = Ok current_table_field_map ->
    names_child field_map table_name table_name (PDict d) = false ->
    distinct (keys d) = true ->
    lookup table_name tables
    = Some (PDict
              (map (fun kv =>
                      (fst kv,
                       field_descriptor current_table_field_map table_name kv))
                 d)).
Proof.
  intros fm d tn cfm r H Hcfm Hn Hd.
  rewrite get_schema_dict, Hcfm in H. cbn [bind] in H. bind_inv H st Hst.
  destruct st as [ctf ct]. inversion H. subst r. clear H.
  destruct (visit_keys_inv _ _ _ tn _ _ _ _ _ Hst) as (_ & _ & _ & I4).
  { intros k x []. }
  rewrite (visit_keys_fields _ _ _ _ _ _ _ _ Hst Hd) by reflexivity.
  unfold assemble. cbn [fst snd app].
  rewrite lookup_dict_update_None.
  - simpl. now rewrite String.eqb_refl.
  - rewrite I4; [reflexivity |]. now apply (names_child_false fm).
Qed.

(** X9.  The table of an object, when none of its keys contributes a nested
    table under the object's own table name: one field for each key of the
    object, in the order of the keys, each with the descriptor of its kind
    of value. *)
Theorem get_schema_fields :
  forall (field_map : pyval) (d : dict) (table_name : string)
         (current_table_field_map : option pyval) (tables : dict),
    get_schema field_map (PDict d) table_name = Ok tables ->
    bind_field_map field_map table_name = Ok current_table_field_map ->
    names_child field_map table_name table_name (PDict d) = false ->
    distinct (keys d) = true ->
    lookup table_name tables
    = Some (PDict
              (map (fun kv =>
                      (fst kv,
                       field_descriptor current_table_field_map table_name kv))
                 d)).
Proof.
  exact get_schema_own_fields.
Qed.


Lemma get_schema_Ok_dict fm j tn r :
  get_schema fm j tn = Ok r -> is_dict j = true.
Proof.
  destruct j as [| | | | | |d]; try reflexivity;
    simpl; destruct (bind_field_map fm tn); discriminate.
Qed.

Lemma collect_items_objects fm name (items : list pyval) :
  forall acc new,
    collect_items (get_schema fm) name items acc = Ok new ->
    Forall (fun e => is_dict e = true) items.
Proof.
  induction items as [|e items IH]; intros acc new H; [constructor |].
  cbn [collect_items] in H. bind_inv H tables Htables.
  constructor; [now apply (get_schema_Ok_dict fm e name tables) |].
  destruct (lookup name tables) as [[| | | | | |table]|];
    try discriminate H.
  now apply (IH _ _ H).
Qed.

Lemma visit_keys_In rec tn cfm (kvs : dict) :
  forall st st' kv,
    visit_keys rec tn cfm kvs st = Ok st' ->
    In kv kvs ->
    exists st1 st2, visit_key rec tn cfm st1 kv = Ok st2.
Proof.
  induction kvs as [|kv0 kvs IH]; intros st st' kv H Hin; [destruct Hin |].
  rewrite visit_keys_cons in H. bind_inv H st1 Hst1.
  destruct Hin as [E|Hin].
  - subst kv0. eauto.
  - now apply (IH st1 st' kv).
Qed.

(** X10.  [get_schema] returns only when every element of every array of
    objects of the object is itself an object: an array that starts with an
    object and holds anything else makes it raise. *)
Theorem get_schema_array_elements :
  forall (field_map : pyval) (d : dict) (table_name : string)
         (tables : dict) (json_key : string) (items : list pyval),
    get_schema field_map (PDict d) table_name = Ok tables ->
    In (json_key, PList items) d ->
    makes_child (PList items) = true ->
    Forall (fun e => is_dict e = true) items.
Proof.
  intros fm d tn r key items H Hin Hmk.
  rewrite get_schema_dict in H. bind_inv H cfm Hcfm. bind_inv H st Hst.
  destruct (visit_keys_In _ _ _ _ _ _ _ Hst Hin) as ([ctf1 ct1] & st2 & Hk).
  unfold visit_key in Hk. rewrite Hmk in Hk. bind_inv Hk name Hname.
  destruct name as [| | | | n | |]; try discriminate Hk.
  unfold list_of_objects in Hk. bind_inv Hk new Hnew.
  now apply (collect_items_objects fm n items [] new).
Qed.


Lemma bind_Raise {A B : Type} (r : result A) (k : A -> result B) (e : exn) :
  bind r k = Raise e ->
  r = Raise e \/ exists x, r = Ok x /\ k x = Raise e.
Proof.
  destruct r as [x|e0]; simpl; intros H; [right; eauto | left].
  now inversion H.
Qed.

Lemma py_get_exn v k e : py_get v k = Raise e -> e = AttributeError.
Proof. destruct v; simpl; intros H; now inversion H. Qed.

Lemma set_optional_exn v e : set_optional v = Raise e -> e = TypeError.
Proof. destruct v; simpl; intros H; now inversion H. Qed.

Lemma bind_field_map_exn fm tn e :
  bind_field_map fm tn = Raise e -> schema_exn e.
Proof.
  unfold bind_field_map. destruct (truthy fm); [| discriminate].
  intros H. apply bind_Raise in H. destruct H as [H|(x & _ & H)];
    [| discriminate H].
  apply py_get_exn in H. subst. right. now left.
Qed.

Lemma list_child_name_exn cfm tn k e :
  list_child_name cfm tn k = Raise e -> schema_exn e.
Proof.
  unfold list_child_name. destruct cfm as [c|];
    [| intros H; inversion H; now left].
  destruct (truthy c); [| discriminate].
  intros H. apply bind_Raise in H. destruct H as [H|(x & _ & H)].
  - apply py_get_exn in H. subst. right. now left.
  - apply bind_Raise in H. destruct H as [H|(y & _ & H)].
    + apply py_get_exn in H. subst. right. now left.
    + destruct (truthy y); discriminate H.
Qed.

Lemma raise_bad_name_exn name items : schema_exn (raise_bad_name name items).
Proof.
  assert (H : schema_exn (bad_name_exn items)).
  { induction items as [|item items IH]; simpl; [right; now right |].
    destruct item as [| | | | | |d]; try (right; now left).
    destruct (existsb _ d); [right; now right | exact IH]. }
  destruct name; simpl; auto; right; now right.
Qed.

Lemma mark_new_exn items old (new : dict) e :
  mark_new items old new = Raise e -> schema_exn e.
Proof.
  induction new as [|[k v] new IH]; simpl; [discriminate |].
  intros H. apply bind_Raise in H. destruct H as [H|(x & _ & H)].
  - destruct (any_missing k items || missing_in_old old k);
      [| discriminate H].
    apply set_optional_exn in H. subst. right. now right.
  - apply bind_Raise in H. destruct H as [H|(y & _ & H)];
      [now apply IH | discriminate H].
Qed.

Lemma mark_old_exn items (old : dict) e :
  mark_old items old = Raise e -> schema_exn e.
Proof.
  induction old as [|[k v] old IH]; simpl; [discriminate |].
  intros H. apply bind_Raise in H. destruct H as [H|(x & _ & H)].
  - destruct (any_missing k items); [| discriminate H].
    apply set_optional_exn in H. subst. right. now right.
  - apply bind_Raise in H. destruct H as [H|(y & _ & H)];
      [now apply IH | discriminate H].
Qed.

Lemma collect_items_exn fm name (items : list pyval) :
  Forall (fun u => forall tn e, get_schema fm u tn = Raise e -> schema_exn e)
    items ->
  forall acc e,
    collect_items (get_schema fm) name items acc = Raise e -> schema_exn e.
Proof.
  induction 1 as [|u items Hu _ IH]; intros acc e H; [discriminate H |].
  cbn [collect_items] in H. apply bind_Raise in H.
  destruct H as [H|(tables & Ht & H)]; [now apply (Hu name) |].
  destruct (get_schema_Ok_head fm u name tables Ht)
    as (fields & rest & -> & _).
  simpl in H. rewrite String.eqb_refl in H. now apply (IH _ _ H).
Qed.

Lemma visit_key_exn fm tn cfm st kv e :
  (forall tn' e', get_schema fm (snd kv) tn' = Raise e' -> schema_exn e') ->
  (forall l, snd kv = PList l ->
     Forall (fun u => forall tn' e', get_schema fm u tn' = Raise e' ->
                                     schema_exn e') l) ->
  visit_key (get_schema fm) tn cfm st kv = Raise e -> schema_exn e.
Proof.
  destruct kv as [k v]. destruct st as [ctf ct]. cbn [snd].
  intros Hv Hl. unfold visit_key.
  destruct v as [| b | z | m x | s | l | d]; try discriminate.
  - destruct (makes_child (PList l)); [| discriminate].
    intros H. apply bind_Raise in H. destruct H as [H|(name & _ & H)];
      [now apply (list_child_name_exn cfm tn k) |].
    destruct name as [| | | | n | |];
      try (match type of H with
           | Raise (raise_bad_name ?v ?i) = _ =>
               pose proof (raise_bad_name_exn v i) as Hb
           end;
           injection H as <-; exact Hb).
    unfold list_of_objects in H. apply bind_Raise in H.
    destruct H as [H|(new & _ & H)];
      [now apply (collect_items_exn fm n l (Hl l eq_refl) []) |].
    apply bind_Raise in H. destruct H as [H|(marked & _ & H)];
      [now apply (mark_new_exn l (lookup n ct) new) |].
    apply bind_Raise in H. destruct H as [H|(ct2 & _ & H)];
      [| discriminate H].
    destruct (lookup n ct) as [old|]; [| discriminate H].
    destruct (truthy old); [| discriminate H].
    destruct old as [| | | | | |old_items];
      try (injection H as <-; right; now left).
    apply bind_Raise in H. destruct H as [H|(old' & _ & H)];
      [now apply (mark_old_exn l old_items) | discriminate H].
  - intros H. apply bind_Raise in H. destruct H as [H|(tables & _ & H)];
      [now apply (Hv (default_child_name tn k)) | discriminate H].
Qed.

Lemma visit_keys_exn fm tn cfm (kvs : dict) :
  Forall (fun kv =>
            (forall tn' e', get_schema fm (snd kv) tn' = Raise e' ->
                            schema_exn e')
            /\ (forall l, snd kv = PList l ->
                  Forall (fun u => forall tn' e',
                            get_schema fm u tn' = Raise e' -> schema_exn e')
                    l)) kvs ->
  forall st e,
    visit_keys (get_schema fm) tn cfm kvs st = Raise e -> schema_exn e.
Proof.
  induction 1 as [|kv kvs [Hv Hl] _ IH]; intros st e H; [discriminate H |].
  rewrite visit_keys_cons in H. apply bind_Raise in H.
  destruct H as [H|(st1 & _ & H)].
  - now apply (visit_key_exn fm tn cfm st kv).
  - now apply (IH st1).
Qed.

Lemma get_schema_exn_value fm (v : pyval) :
  (forall tn e, get_schema fm v tn = Raise e -> schema_exn e)
  /\ (forall l, v = PList l ->
        Forall (fun u => forall tn e, get_schema fm u tn = Raise e ->
                                      schema_exn e) l).
Proof.
  induction v as [| b | z | m x | s | l IH | d IH] using pyval_ind;
    (split; [| try discriminate]);
    try (intros tn e H; simpl in H;
         destruct (bind_field_map fm tn) eqn:Hb;
         [inversion H; right; now left
         | inversion H; subst; now apply (bind_field_map_exn fm tn)]).
  - intros l0 E. inversion E. subst l0.
    apply Forall_forall. intros u Hin.
    now apply (proj1 (Forall_forall _ l) IH u Hin).
  - intros tn e H. rewrite get_schema_dict in H. apply bind_Raise in H.
    destruct H as [H|(cfm & _ & H)]; [now apply (bind_field_map_exn fm tn) |].
    apply bind_Raise in H. destruct H as [H|(st & _ & H)];
      [| discriminate H].
    now apply (visit_keys_exn fm tn cfm d IH ([], [])).
Qed.

(** X12.  The only exceptions [get_schema] raises are [UnboundLocalError],
    [AttributeError] and [TypeError]: in particular the subscript
    [[child_table_name]] of line 179 never raises [KeyError]. *)
Theorem get_schema_exceptions :
  forall (field_map json_object : pyval) (table_name : string) (e : exn),
    get_schema field_map json_object table_name = Raise e ->
    e = UnboundLocalError \/ e = AttributeError \/ e = TypeError.
Proof.
  intros fm j tn e H.
  now apply (proj1 (get_schema_exn_value fm j) tn e).
Qed.


(** ** Two arrays under one table name *)

Lemma lookup_dict_update (e : dict) (d : dict) k :
  distinct (keys e) = true ->
  lookup k (dict_update d e)
  = match lookup k e with
    | Some v => Some v
    | None => lookup k d
    end.
Proof.
  intros Hd. destruct (lookup k e) as [v|] eqn:E.
  - now apply lookup_dict_update_Some.
  - now apply lookup_dict_update_None.
Qed.

Lemma distinct_dict_update (e : dict) : forall d : dict,
  distinct (keys d) = true -> distinct (keys (dict_update d e)) = true.
Proof.
  induction e as [|[k v] e IH]; intros d Hd; [exact Hd |].
  rewrite dict_update_cons. apply IH. now apply distinct_dict_set.
Qed.

Lemma collect_items_distinct rec name (items : list pyval) :
  forall acc new,
    collect_items rec name items acc = Ok new ->
    distinct (keys acc) = true -> distinct (keys new) = true.
Proof.
  induction items as [|e items IH]; intros acc new H Hd.
  - inversion H. now subst.
  - cbn [collect_items] in H. bind_inv H tables Htables.
    destruct (lookup name tables) as [[| | | | | |table]|];
      try discriminate H.
    apply (IH _ _ H). now apply distinct_dict_update.
Qed.

Lemma mark_new_keys items old (new : dict) :
  forall marked, mark_new items old new = Ok marked -> keys marked = keys new.
Proof.
  induction new as [|[k v] new IH]; intros marked H.
  - inversion H. reflexivity.
  - cbn [mark_new] in H. bind_inv H v' Hv'. bind_inv H rest' Hrest.
    inversion H. simpl. f_equal. now apply IH.
Qed.

Lemma mark_old_keys items (old : dict) :
  forall old', mark_old items old = Ok old' -> keys old' = keys old.
Proof.
  induction old as [|[k v] old IH]; intros old' H.
  - inversion H. reflexivity.
  - cbn [mark_old] in H. bind_inv H v' Hv'. bind_inv H rest' Hrest.
    inversion H. simpl. f_equal. now apply IH.
Qed.

Lemma mem_keys (d d' : dict) k : keys d = keys d' -> mem k d = mem k d'.
Proof.
  revert d'. induction d as [|[k1 v1] d IH]; intros [|[k2 v2] d'] E;
    try discriminate E; [reflexivity |].
  inversion E. subst k2. unfold mem in *. simpl.
  destruct (String.eqb k k1); [reflexivity | now apply IH].
Qed.

(** The loop over the new keys, when a table of that name exists. *)
Lemma mark_new_old_spec (items : list pyval) (old new : dict) :
  truthy (PDict old) = true ->
  forall marked,
    mark_new items (Some (PDict old)) new = Ok marked ->
    (forall k x, In (k, x) new -> fresh_descr x = true) ->
    forall k x', lookup k marked = Some x' ->
                 has_optional x' = any_missing k items || negb (mem k old).
Proof.
  intros Hold. induction new as [|[k1 v1] new IH]; intros marked H Hfresh.
  - inversion H. discriminate.
  - cbn [mark_new] in H.
    bind_inv H v' Hv'. bind_inv H rest' Hrest. inversion H. subst marked.
    intros k x'. simpl.
    destruct (String.eqb_spec k k1) as [E|Hne].
    + subst k1. intros E. inversion E. subst x'.
      unfold missing_in_old in Hv'. rewrite Hold in Hv'.
      cbn [key_in andb] in Hv'.
      destruct (any_missing k items || negb (mem k old)).
      * now apply (set_optional_has v1).
      * inversion Hv'. subst v'. apply fresh_not_optional.
        apply (Hfresh k). now left.
    + apply (IH _ Hrest). intros k0 x Hin. apply (Hfresh k0). now right.
Qed.

(** The loop over the keys of the table already there. *)
Lemma mark_old_spec (items : list pyval) (old : dict) :
  forall old',
    mark_old items old = Ok old' ->
    forall k x', lookup k old' = Some x' ->
                 any_missing k items = true -> has_optional x' = true.
Proof.
  induction old as [|[k1 v1] old IH]; intros old' H.
  - inversion H. discriminate.
  - cbn [mark_old] in H.
    bind_inv H v' Hv'. bind_inv H rest' Hrest. inversion H. subst old'.
    intros k x'. simpl.
    destruct (String.eqb_spec k k1) as [E|Hne]; [| now apply IH].
    subst k1. intros E Hmiss. inversion E. subst x'.
    rewrite Hmiss in Hv'. now apply (set_optional_has v1).
Qed.

Lemma any_missing_nowhere k (items : list pyval) :
  items <> [] -> existsb (key_in k) items = false ->
  any_missing k items = true.
Proof.
  destruct items as [|e items]; [congruence |].
  intros _ H. simpl in H. apply orb_false_iff in H. destruct H as [He _].
  unfold any_missing. simpl. now rewrite He.
Qed.

(** The array of objects that is the first to use a table name. *)
Lemma array_step_new fm tn cfm ctf ct key items name ctf' ct' :
  makes_child (PList items) = true ->
  list_child_name cfm tn key = Ok (PStr name) ->
  lookup name ct = None ->
  forallb (fun e => negb (names_child fm name name e)) items = true ->
  visit_key (get_schema fm) tn cfm (ctf, ct) (key, PList items)
  = Ok (ctf', ct') ->
  exists marked,
    ct' = dict_set ct name (PDict marked)
    /\ (forall k, mem k marked = existsb (key_in k) items)
    /\ (forall k x, lookup k marked = Some x ->
                    has_optional x = any_missing k items).
Proof.
  intros Hmk Hname Hct Hitems H.
  unfold visit_key in H. rewrite Hmk, Hname in H. cbn [bind] in H.
  unfold list_of_objects in H. rewrite Hct in H.
  bind_inv H new Hnew. bind_inv H marked Hmarked.
  cbn [bind] in H. inversion H. subst ctf' ct'. clear H.
  destruct (collect_items_spec _ _ _ _ _ Hnew Hitems) as [N1 N2].
  { intros k x []. }
  destruct (mark_new_spec _ _ _ Hmarked N1) as [M1 M2].
  exists marked. split; [reflexivity |]. split; [| exact M2].
  intros k. now rewrite M1, N2.
Qed.

(** A table that is there and empty counts as absent (lines 191 and 196). *)
Lemma mark_new_empty_old (items : list pyval) (new : dict) :
  mark_new items (Some (PDict [])) new = mark_new items None new.
Proof.
  induction new as [|[k v] new IH]; [reflexivity |].
  cbn [mark_new missing_in_old truthy andb]. now rewrite IH.
Qed.

(** The array of objects that finds an empty table of its name. *)
Lemma array_step_empty fm tn cfm ctf ct key items name ctf' ct' :
  makes_child (PList items) = true ->
  list_child_name cfm tn key = Ok (PStr name) ->
  lookup name ct = Some (PDict []) ->
  forallb (fun e => negb (names_child fm name name e)) items = true ->
  visit_key (get_schema fm) tn cfm (ctf, ct) (key, PList items)
  = Ok (ctf', ct') ->
  exists marked,
    ct' = dict_set ct name (PDict marked)
    /\ (forall k, mem k marked = existsb (key_in k) items)
    /\ (forall k x, lookup k marked = Some x ->
                    has_optional x = any_missing k items).
Proof.
  intros Hmk Hname Hct Hitems H.
  unfold visit_key in H. rewrite Hmk, Hname in H. cbn [bind] in H.
  unfold list_of_objects in H. rewrite Hct in H.
  bind_inv H new Hnew. rewrite mark_new_empty_old in H.
  bind_inv H marked Hmarked.
  cbn [bind truthy] in H. inversion H. subst ctf' ct'. clear H.
  destruct (collect_items_spec _ _ _ _ _ Hnew Hitems) as [N1 N2].
  { intros k x []. }
  destruct (mark_new_spec _ _ _ Hmarked N1) as [M1 M2].
  exists marked. split; [reflexivity |]. split; [| exact M2].
  intros k. now rewrite M1, N2.
Qed.

(** The array of objects that finds a table of its name already there. *)
Lemma array_step_old fm tn cfm ctf ct key items name old ctf' ct' :
  makes_child (PList items) = true ->
  list_child_name cfm tn key = Ok (PStr name) ->
  lookup name ct = Some (PDict old) ->
  truthy (PDict old) = true ->
  forallb (fun e => negb (names_child fm name name e)) items = true ->
  visit_key (get_schema fm) tn cfm (ctf, ct) (key, PList items)
  = Ok (ctf', ct') ->
  exists table,
    ct' = dict_set ct name (PDict table)
    /\ (forall k, mem k table = mem k old || existsb (key_in k) items)
    /\ (forall k x, lookup k table = Some x ->
                    has_optional x
                    = any_missing k items || negb (mem k old)).
Proof.
  intros Hmk Hname Hct Hold Hitems H.
  assert (Hne : items <> []) by (destruct items; discriminate).
  unfold visit_key in H. rewrite Hmk, Hname in H. cbn [bind] in H.
  unfold list_of_objects in H. rewrite Hct, Hold in H.
  bind_inv H new Hnew. bind_inv H marked Hmarked.
  bind_inv H ct2 Hct2. bind_inv Hct2 old' Hold'.
  inversion Hct2. subst ct2. inversion H. subst ctf' ct'. clear H Hct2.
  destruct (collect_items_spec _ _ _ _ _ Hnew Hitems) as [N1 N2].
  { intros k x []. }
  pose proof (collect_items_distinct _ _ _ _ _ Hnew eq_refl) as Dnew.
  pose proof (mark_new_keys _ _ _ _ Hmarked) as Kmarked.
  pose proof (mark_old_keys _ _ _ Hold') as Kold.
  assert (Dmarked : distinct (keys marked) = true) by now rewrite Kmarked.
  assert (Mmarked : forall k, mem k marked = existsb (key_in k) items).
  { intros k. rewrite (mem_keys marked new k Kmarked). now rewrite N2. }
  exists (dict_update old' marked). split; [reflexivity |]. split.
  - intros k. now rewrite mem_dict_update, (mem_keys old' old k Kold), Mmarked.
  - intros k x. rewrite (lookup_dict_update marked old' k Dmarked).
    destruct (lookup k marked) as [y|] eqn:Ey.
    + intros E. inversion E. subst y.
      now apply (mark_new_old_spec items old new Hold marked Hmarked N1 k x).
    + intros Hx.
      assert (Hmiss : any_missing k items = true).
      { apply any_missing_nowhere; [assumption |].
        rewrite <- Mmarked. unfold mem. now rewrite Ey. }
      rewrite Hmiss. simpl.
      now apply (mark_old_spec items old old' Hold' k x Hx Hmiss).
Qed.

Lemma names_child_parts fm tn name (d1 d2 : dict) cfm :
  bind_field_map fm tn = Ok cfm ->
  names_child fm tn name (PDict (d1 ++ d2)) = false ->
  (forall kv, In kv d1 -> child_name_of cfm tn kv <> Some name)
  /\ (forall kv, In kv d2 -> child_name_of cfm tn kv <> Some name).
Proof.
  intros Hcfm Hn.
  pose proof (names_child_false fm tn name (d1 ++ d2) cfm Hcfm Hn) as H.
  split; intros kv Hin; apply H, in_or_app; auto.
Qed.

Lemma some_key_of_truthy (items : list pyval) :
  Forall (fun e => is_dict e = true) items ->
  existsb truthy items = true ->
  exists k, existsb (key_in k) items = true.
Proof.
  induction 1 as [|e items He _ IH]; simpl; [discriminate |].
  destruct e as [| | | | | |d]; try discriminate He.
  destruct d as [|[k v] d]; simpl.
  - intros H. destruct (IH H) as [k Hk]. exists k. exact Hk.
  - intros _. exists k. unfold mem. simpl. now rewrite String.eqb_refl.
Qed.

Lemma no_key_of_falsy (items : list pyval) :
  Forall (fun e => is_dict e = true) items ->
  existsb truthy items = false ->
  forall k, existsb (key_in k) items = false.
Proof.
  induction 1 as [|e items He _ IH]; simpl; [reflexivity |].
  destruct e as [| | | | | |d]; try discriminate He.
  destruct d as [|kv d]; simpl; [| discriminate].
  intros H k. now apply IH.
Qed.

(** X11.  Two arrays of objects of one object whose tables get the same
    name, when no other key of the object and no key of the elements
    contributes a table of that name, share one table: its fields are the
    keys of the elements of both arrays, and a field carries
    [optional: true] exactly when some element of the second array lacks
    the key, or the first array has an element that is not empty and none
    of its elements has the key.  What the elements of the first array lack
    among themselves is forgotten. *)
Theorem get_schema_shared_table :
  forall (field_map : pyval) (table_name : string)
         (before between after : dict) (key1 key2 : string)
         (items1 items2 : list pyval) (name : string) (tables : dict),
    makes_child (PList items1) = true ->
    makes_child (PList items2) = true ->
    table_name_of field_map table_name key1 = Ok (PStr name) ->
    table_name_of field_map table_name key2 = Ok (PStr name) ->
    names_child field_map table_name name
      (PDict (before ++ between ++ after)) = false ->
    forallb (fun e => negb (names_child field_map name name e))
      (items1 ++ items2) = true ->
    get_schema field_map
      (PDict (before ++ (key1, PList items1)
                :: between ++ (key2, PList items2) :: after))
      table_name = Ok tables ->
    exists table,
      lookup name tables = Some (PDict table)
      /\ (forall k, mem k table
                    = existsb (key_in k) items1 || existsb (key_in k) items2)
      /\ (forall k descr,
             lookup k table = Some descr ->
             has_optional descr
             = any_missing k items2
               || (existsb truthy items1
                   && negb (existsb (key_in k) items1))).
Proof.
  intros fm tn pre mid post k1 k2 items1 items2 name r
         Hmk1 Hmk2 Hn1 Hn2 Hothers Hitems H.
  rewrite forallb_app in Hitems. apply andb_true_iff in Hitems.
  destruct Hitems as [Hi1 Hi2].
  rewrite get_schema_dict in H. bind_inv H cfm Hcfm.
  unfold table_name_of in Hn1, Hn2. rewrite Hcfm in Hn1, Hn2.
  cbn [bind] in Hn1, Hn2.
  destruct (names_child_parts _ _ _ _ _ _ Hcfm Hothers) as [Npre Nrest].
  assert (Nmid : forall kv, In kv mid -> child_name_of cfm tn kv <> Some name)
    by (intros kv Hin; apply Nrest, in_or_app; now left).
  assert (Npost : forall kv, In kv post ->
                             child_name_of cfm tn kv <> Some name)
    by (intros kv Hin; apply Nrest, in_or_app; now right).
  rewrite visit_keys_app in H. bind_inv H st Hst. bind_inv Hst st1 Hpre.
  rewrite visit_keys_cons in Hst. bind_inv Hst st2 Hkey1.
  rewrite visit_keys_app in Hst. bind_inv Hst st3 Hmid.
  rewrite visit_keys_cons in Hst. bind_inv Hst st4 Hkey2.
  destruct st1 as [ctf1 ct1]. destruct st2 as [ctf2 ct2].
  destruct st3 as [ctf3 ct3]. destruct st4 as [ctf4 ct4].
  destruct st as [ctf ct]. inversion H. subst r. clear H.
  (* the keys before the first array *)
  destruct (visit_keys_inv _ _ _ name _ _ _ _ _ Hpre) as (F1 & _ & D1 & L1).
  { intros k x []. }
  specialize (D1 eq_refl). specialize (L1 Npre). simpl in L1.
  (* the first array *)
  pose proof (visit_key_Ok _ _ _ _ _ _ _ _ _ Hkey1) as [(x1 & E1 & Hx1) _].
  pose proof Hkey1 as Hobj1. unfold visit_key in Hobj1.
  rewrite Hmk1, Hn1 in Hobj1. cbn [bind] in Hobj1.
  unfold list_of_objects in Hobj1. bind_inv Hobj1 new1 Hnew1.
  pose proof (collect_items_objects fm name items1 [] new1 Hnew1) as Hdicts.
  clear Hobj1.
  destruct (array_step_new _ _ _ _ _ _ _ _ _ _ Hmk1 Hn1 L1 Hi1 Hkey1)
    as (marked & -> & M1 & M2).
  (* the keys between the two arrays *)
  destruct (visit_keys_inv _ _ _ name _ _ _ _ _ Hmid) as (F3 & _ & D3 & L3).
  { subst ctf2. intros k x Hin. apply In_dict_set in Hin.
    destruct Hin as [[_ ->]|Hin]; [assumption | eauto]. }
  specialize (D3 (distinct_dict_set _ _ _ D1)). specialize (L3 Nmid).
  rewrite lookup_dict_set_same in L3.
  (* the second array *)
  pose proof (visit_key_Ok _ _ _ _ _ _ _ _ _ Hkey2) as [(x2 & E2 & Hx2) _].
  assert (Hstep :
            exists table,
              ct4 = dict_set ct3 name (PDict table)
              /\ (forall k, mem k table
                            = existsb (key_in k) items1
                              || existsb (key_in k) items2)
              /\ (forall k x,
                     lookup k table = Some x ->
                     has_optional x
                     = any_missing k items2
                       || (existsb truthy items1
                           && negb (existsb (key_in k) items1)))).
  { destruct (existsb truthy items1) eqn:Hsome.
    - destruct (some_key_of_truthy items1 Hdicts Hsome) as [k0 Hk0].
      assert (Htruthy : truthy (PDict marked) = true).
      { specialize (M1 k0). rewrite Hk0 in M1.
        destruct marked; [discriminate M1 | reflexivity]. }
      destruct (array_step_old _ _ _ _ _ _ _ _ _ _ _
                  Hmk2 Hn2 L3 Htruthy Hi2 Hkey2)
        as (table & E & T1 & T2).
      exists table. split; [exact E |]. split.
      + intros k. now rewrite T1, M1.
      + intros k x Hl. now rewrite (T2 k x Hl), M1.
    - pose proof (no_key_of_falsy items1 Hdicts Hsome) as Hnone.
      assert (Hempty : marked = []).
      { destruct marked as [|[k0 v0] m]; [reflexivity |].
        specialize (M1 k0). rewrite Hnone in M1. unfold mem in M1.
        simpl in M1. rewrite String.eqb_refl in M1. discriminate M1. }
      subst marked.
      destruct (array_step_empty _ _ _ _ _ _ _ _ _ _
                  Hmk2 Hn2 L3 Hi2 Hkey2)
        as (table & E & T1 & T2).
      exists table. split; [exact E |]. split.
      + intros k. now rewrite T1, Hnone.
      + intros k x Hl. rewrite (T2 k x Hl). simpl. now rewrite orb_false_r. }
  destruct Hstep as (table & -> & T1 & T2).
  (* the keys after the second array *)
  destruct (visit_keys_inv _ _ _ name _ _ _ _ _ Hst) as (_ & _ & D5 & L5).
  { subst ctf4. intros k x Hin. apply In_dict_set in Hin.
    destruct Hin as [[_ ->]|Hin]; [assumption | eauto]. }
  specialize (D5 (distinct_dict_set _ _ _ D3)). specialize (L5 Npost).
  rewrite lookup_dict_set_same in L5.
  exists table. split; [| split].
  - unfold assemble. cbn [fst snd].
    now apply lookup_dict_update_Some.
  - exact T1.
  - exact T2.
Qed.


(** ** The field map is read for arrays of objects only *)

Lemma bind_field_map_returns fm tn :
  is_dict fm = true \/ truthy fm = false ->
  exists cfm, bind_field_map fm tn = Ok cfm.
Proof.
  unfold bind_field_map. intros [H|H].
  - destruct fm as [| | | | | |d]; try discriminate H.
    destruct (truthy (PDict d)); simpl; eauto.
  - rewrite H. eauto.
Qed.

Lemma visit_keys_any_field_map fm tn cfm (kvs : dict) :
  Forall (fun kv =>
            forall d tn', snd kv = PDict d ->
              has_object_array (snd kv) = false ->
              get_schema fm (snd kv) tn' = get_schema PNone (snd kv) tn')
    kvs ->
  has_object_array (PDict kvs) = false ->
  forall st,
    visit_keys (get_schema fm) tn cfm kvs st
    = visit_keys (get_schema PNone) tn None kvs st.
Proof.
  induction 1 as [|[k v] kvs Hv _ IH]; intros Hno st; [reflexivity |].
  rewrite has_object_array_dict in Hno. cbn [existsb snd] in Hno.
  rewrite <- has_object_array_dict in Hno.
  apply orb_false_iff in Hno. destruct Hno as [Hnv Hno].
  rewrite !visit_keys_cons. destruct st as [ctf ct].
  assert (Hstep : visit_key (get_schema fm) tn cfm (ctf, ct) (k, v)
                  = visit_key (get_schema PNone) tn None (ctf, ct) (k, v)).
  { destruct v as [| b | z | m e | s | l | d]; try reflexivity.
    - now rewrite !visit_key_scalar_array.
    - pose proof (Hv d (default_child_name tn k) eq_refl Hnv) as Hrec.
      cbn [snd] in Hrec. unfold visit_key. now rewrite Hrec. }
  rewrite Hstep.
  destruct (visit_key (get_schema PNone) tn None (ctf, ct) (k, v));
    cbn [bind]; [now apply IH | reflexivity].
Qed.

Lemma get_schema_any_field_map fm (v : pyval) :
  is_dict fm = true \/ truthy fm = false ->
  forall d tn, v = PDict d ->
    has_object_array v = false ->
    get_schema fm v tn = get_schema PNone v tn.
Proof.
  intros Hfm.
  induction v as [| b | z | m e | s | l IH | d0 IH] using pyval_ind;
    intros d tn E Hno; try discriminate E.
  clear E. rewrite !get_schema_dict.
  destruct (bind_field_map_returns fm tn Hfm) as [cfm Hcfm].
  rewrite Hcfm. cbn [bind_field_map truthy bind].
  now rewrite (visit_keys_any_field_map fm tn cfm d0 IH Hno).
Qed.

(** X15.  The field map is consulted for arrays of objects only: on an
    object that reaches no array of objects, every field map that is a
    mapping (or is absent) gives the result of the run without a field
    map. *)
Theorem get_schema_ignores_field_map :
  forall (field_map : pyval) (d : dict) (table_name : string),
    is_dict field_map = true \/ truthy field_map = false ->
    has_object_array (PDict d) = false ->
    get_schema field_map (PDict d) table_name
    = get_schema PNone (PDict d) table_name.
Proof.
  intros fm d tn Hfm Hno.
  now apply (get_schema_any_field_map fm (PDict d) Hfm d tn).
Qed.


(** ** Names and labels *)

(** X13.  No value is classified [Boolean]. *)
Theorem get_type_string_never_boolean :
  forall v : pyval, get_type_string v <> "Boolean".
Proof.
  intros v. destruct v; simpl; discriminate.
Qed.

Lemma upper_lower_char (c : ascii) : upper_char (lower_char c) = upper_char c.
Proof.
  destruct c as [b0 b1 b2 b3 b4 b5 b6 b7].
  destruct b0, b1, b2, b3, b4, b5, b6, b7; reflexivity.
Qed.

Lemma lower_upper_char (c : ascii) : lower_char (upper_char c) = lower_char c.
Proof.
  destruct c as [b0 b1 b2 b3 b4 b5 b6 b7].
  destruct b0, b1, b2, b3, b4, b5, b6, b7; reflexivity.
Qed.

Lemma upper_char_eq_iff (c1 c2 : ascii) :
  upper_char c1 = upper_char c2 <-> lower_char c1 = lower_char c2.
Proof.
  split; intros H.
  - now rewrite <- (lower_upper_char c1), <- (lower_upper_char c2), H.
  - now rewrite <- (upper_lower_char c1), <- (upper_lower_char c2), H.
Qed.

Lemma ascii_capitalize_eq_iff (s1 s2 : string) :
  ascii_capitalize s1 = ascii_capitalize s2 <-> lower s1 = lower s2.
Proof.
  destruct s1 as [|c1 s1], s2 as [|c2 s2]; simpl;
    try (split; [reflexivity | reflexivity]);
    try (split; discriminate).
  split; intros H; injection H as Hc Hs; f_equal;
    try exact Hs; now apply upper_char_eq_iff.
Qed.

Lemma string_app_inv_head (p s1 s2 : string) :
  (p ++ s1 = p ++ s2)%string -> s1 = s2.
Proof.
  induction p as [|c p IH]; simpl; intros H; [exact H |].
  injection H as H. now apply IH.
Qed.

(** X14.  The default name of a nested table does not tell keys apart by
    letter case: under one table, two keys of ASCII characters get the same
    default name exactly when they agree up to the case of their letters. *)
Theorem default_child_name_case :
  forall table_name key1 key2 : string,
    is_ascii key1 = true ->
    is_ascii key2 = true ->
    (default_child_name table_name key1 = default_child_name table_name key2
     <-> lower key1 = lower key2).
Proof.
  intros tn k1 k2 H1 H2. unfold default_child_name, capitalize.
  rewrite H1, H2. rewrite <- ascii_capitalize_eq_iff.
  split; intros H.
  - now apply string_app_inv_head in H.
  - now rewrite H.
Qed.

(** X16.  Every exception [merge] raises is a conflict: its message is
    ['Conflict at '] and the dotted path, made of the path of the call and a
    path at which the two trees hold values that cannot be reconciled. *)
Theorem merge_raises_conflicts_only :
  forall (a b : dict) (path : list string) (e : exn),
    well_formed (PDict b) = true ->
    outcome (merge a b path) = Raise e ->
    exists q av bv,
      get_path a q = Some av /\ get_path b q = Some bv
      /\ clash av bv = true
      /\ e = Exception ("Conflict at " ++ String.concat "." (path ++ q)).
Proof.
  intros a b path e Hw H. unfold merge, outcome in H.
  destruct (merge_keys merge_value path b a) as [[a' b'] r] eqn:Hm.
  simpl in H. subst r.
  exact (merge_raise_sound (PDict b) b eq_refl Hw a path a' b' e Hm).
Qed.

Lemma merge_raises_conflicts_only_witness :
  exists q av bv,
    get_path [("k", PDict [("t", PDict [("type", PStr "Number")])])] q
    = Some av
    /\ get_path [("k", PDict [("t", PDict [("type", PStr "String")])])] q
       = Some bv
    /\ clash av bv = true
    /\ Exception "Conflict at x.k.t.type"
       = Exception ("Conflict at " ++ String.concat "." (["x"] ++ q)).
Proof.
  apply (merge_raises_conflicts_only
           [("k", PDict [("t", PDict [("type", PStr "Number")])])]
           [("k", PDict [("t", PDict [("type", PStr "String")])])] ["x"]);
    reflexivity.
Defined.

(** ** Descriptions at a path, and inference followed by merge *)

Lemma merge_key_outcome_local rec path a a1 key bv :
  lookup key a1 = lookup key a ->
  outcome (merge_key rec path a1 (key, bv))
  = outcome (merge_key rec path a (key, bv)).
Proof.
  intros E. unfold merge_key, outcome. rewrite E.
  destruct (lookup key a) as [av|] eqn:Ha; [| reflexivity].
  destruct av as [| | | | sa | | ad]; destruct bv as [| | | | sb | | bd];
    try (destruct (rec (PDict bd) ad (path ++ [key])) as [[ad' bv'] r];
         reflexivity);
    match goal with
    | |- context [if py_eq ?x ?y then _ else _] =>
        destruct (py_eq x y); reflexivity
    end.
Qed.

(** In a merge that returns, the iteration of every key of [b] returns. *)
Lemma merge_keys_outcome_at rec path (b : dict) :
  forall a k bv,
    distinct (keys b) = true ->
    lookup k b = Some bv ->
    outcome (merge_keys rec path b a) = Ok tt ->
    outcome (merge_key rec path a (k, bv)) = Ok tt.
Proof.
  induction b as [|[key v] rest IH]; intros a k bv Hd Hl Hok;
    [discriminate Hl |].
  simpl keys in Hd. apply distinct_cons in Hd. destruct Hd as [Hnot Hd].
  rewrite merge_keys_cons in Hok. simpl in Hl.
  destruct (String.eqb_spec k key) as [E|Hne].
  - subst k. inversion Hl. subst v. clear Hl.
    destruct (merge_key rec path a (key, bv)) as [[a1 bv1] r1].
    destruct r1 as [[]|e1]; [reflexivity | discriminate Hok].
  - pose proof (merge_key_frame rec path a key v k Hne) as Hframe.
    destruct (merge_key rec path a (key, v)) as [[a1 v1] r1].
    unfold a_after in Hframe. simpl in Hframe.
    destruct r1 as [[]|e1]; [| discriminate Hok].
    rewrite <- (merge_key_outcome_local rec path a a1 k bv Hframe).
    apply (IH a1 k bv Hd Hl). unfold outcome in *.
    destruct (merge_keys rec path rest a1) as [[a2 rest2] r2].
    exact Hok.
Qed.

Lemma well_formed_lookup (d : dict) k v :
  well_formed (PDict d) = true -> lookup k d = Some v ->
  well_formed v = true.
Proof.
  simpl. rewrite andb_true_iff. intros [_ Hw] Hl.
  apply lookup_In in Hl.
  exact (proj1 (forallb_forall _ d) Hw (k, v) Hl).
Qed.

Lemma well_formed_distinct (d : dict) :
  well_formed (PDict d) = true -> distinct (keys d) = true.
Proof. simpl. rewrite andb_true_iff. now intros [H _]. Qed.

(** Rules 4 and 5 at a path of the two trees. *)
Lemma merge_describes_path (p : list string) :
  forall (a b : dict) (path : list string) (s : string) (d : dict),
    well_formed (PDict b) = true ->
    outcome (merge a b path) = Ok tt ->
    (get_path a p = Some (PDict d) /\ get_path b p = Some (PStr s))
    \/ (get_path a p = Some (PStr s) /\ get_path b p = Some (PDict d)) ->
    get_path (a_after (merge a b path)) p
    = Some (PDict (dict_set d "description" (PStr s))).
Proof.
  induction p as [|k p IH]; intros a b path s d Hw Hok Hp.
  - destruct Hp as [[Ha _]|[Ha _]]; discriminate Ha.
  - pose proof (well_formed_distinct b Hw) as Hd.
    destruct p as [|k' q].
    + rewrite !get_path_one in *.
      now apply (merge_describes_key a b path k s d).
    + assert (Hboth : exists ad bd,
                 lookup k a = Some (PDict ad) /\ lookup k b = Some (PDict bd)
                 /\ ((get_path ad (k' :: q) = Some (PDict d)
                      /\ get_path bd (k' :: q) = Some (PStr s))
                     \/ (get_path ad (k' :: q) = Some (PStr s)
                         /\ get_path bd (k' :: q) = Some (PDict d)))).
      { destruct Hp as [[Ha Hb]|[Ha Hb]];
          apply get_path_deep in Ha; apply get_path_deep in Hb;
          destruct Ha as (ad & Hla & Ha); destruct Hb as (bd & Hlb & Hb);
          exists ad, bd; auto. }
      destruct Hboth as (ad & bd & Hla & Hlb & Hnest).
      unfold merge in *.
      pose proof (merge_keys_at merge_value path b a k (PDict bd) Hd Hlb Hok)
        as Hat.
      pose proof (merge_keys_outcome_at merge_value path b a k (PDict bd)
                    Hd Hlb Hok) as Hout.
      unfold merge_key, a_after, outcome in Hat, Hout.
      rewrite Hla in Hat, Hout. rewrite merge_value_dict in Hat, Hout.
      specialize (IH ad bd (path ++ [k]) s d
                    (well_formed_lookup b k (PDict bd) Hw Hlb)).
      unfold merge, a_after, outcome in IH.
      destruct (merge_keys merge_value (path ++ [k]) bd ad)
        as [[ad' bd'] r].
      cbn [fst snd] in Hat, Hout, IH.
      rewrite lookup_dict_set_same in Hat. unfold a_after.
      rewrite (get_path_nested _ ad' k k' q Hat).
      subst r. now apply IH.
Qed.

(** X6.  Rules 4 and 5 at any depth: where one tree holds a string and the
    other a mapping at the same path, a merge that returns leaves at that
    path the mapping with the string as its [description]. *)
Theorem merge_shorthand_at_path :
  forall (a b : dict) (path p : list string) (s : string) (d : dict),
    well_formed (PDict b) = true ->
    outcome (merge a b path) = Ok tt ->
    (get_path a p = Some (PDict d) /\ get_path b p = Some (PStr s))
    \/ (get_path a p = Some (PStr s) /\ get_path b p = Some (PDict d)) ->
    get_path (a_after (merge a b path)) p
    = Some (PDict (dict_set d "description" (PStr s))).
Proof.
  intros a b path p. apply merge_describes_path.
Qed.

Lemma merge_shorthand_at_path_witness :
  get_path
    (a_after (merge [(".", PDict [("wNow", descr_type "Number")])]
                [(".", PDict [("wNow", PStr "The power now.")])] []))
    ["."; "wNow"]
  = Some (PDict (dict_set [("type", PStr "Number")] "description"
                   (PStr "The power now."))).
Proof.
  apply (merge_shorthand_at_path
           [(".", PDict [("wNow", descr_type "Number")])]
           [(".", PDict [("wNow", PStr "The power now.")])] []
           ["."; "wNow"] "The power now." [("type", PStr "Number")]);
    [reflexivity | reflexivity |].
  left. split; reflexivity.
Defined.




(** * [get_request_section] *)

Lemma request_row_returns_iff (query_item : pyval) :
  (exists row, request_row query_item = Ok row)
  <-> query_item_ok query_item = true.
Proof.
  destruct query_item as [| | | | | |d];
    try (split; [intros [row H]; discriminate H | discriminate]).
  unfold request_row, query_item_ok, dict_getitem, mem.
  destruct (lookup "name" d) as [[| | | | name | |]|];
    try (split; [intros [row H]; discriminate H | discriminate]).
  destruct (lookup "type" d) as [[| | | | type | |]|];
    try (split; [intros [row H]; discriminate H | discriminate]).
  destruct (lookup "description" d) as [[| | | | description | |]|];
    destruct (lookup "value" d) as [[| | | | value | |]|];
    cbn [bind str_add is_str andb];
    try (split; [intros [row H]; discriminate H | discriminate]);
    (split; [reflexivity | intros _; eexists; reflexivity]).
Qed.

Lemma request_rows_returns_iff (items : list pyval) :
  forall text,
    (exists out, request_rows items text = Ok out)
    <-> forallb query_item_ok items = true.
Proof.
  induction items as [|q items IH]; intros text.
  - simpl. split; [reflexivity | intros _; now exists text].
  - cbn [request_rows forallb]. rewrite andb_true_iff.
    rewrite <- (request_row_returns_iff q).
    destruct (request_row q) as [row|e]; cbn [bind].
    + rewrite (IH (text ++ row)%string). split.
      * intros H. split; [now exists row | exact H].
      * now intros [_ H].
    + split; [intros [out H]; discriminate H |].
      intros [[row H] _]. discriminate H.
Qed.

(** X17.  [get_request_section] returns exactly when the query items can be
    gone through and every one of them is a mapping with a string under
    [name], [type] and [description], and under [value] when it has that
    key; otherwise it raises. *)
Theorem get_request_section_returns_iff :
  forall (request_json : pyval) (auth_required : bool) (file_depth : Z),
    (exists text,
        get_request_section request_json auth_required file_depth = Ok text)
    <-> exists items,
          py_iter request_json = Ok items
          /\ forallb query_item_ok items = true.
Proof.
  intros rj auth depth. unfold get_request_section.
  destruct (py_iter rj) as [items|e]; cbn [bind].
  - split.
    + intros [text H]. exists items. split; [reflexivity |].
      apply (request_rows_returns_iff items (request_head auth depth)).
      destruct (request_rows items (request_head auth depth)) as [out|e];
        [now exists out | discriminate H].
    + intros (items' & E & Hok). inversion E. subst items'.
      apply (request_rows_returns_iff items (request_head auth depth)) in Hok.
      destruct Hok as [out Hout]. rewrite Hout. cbn [bind]. eauto.
  - split; [intros [text H]; discriminate H |].
    intros (items & E & _). discriminate E.
Qed.

(** * [get_table_and_types_section] *)

Lemma true_member_dict (d : dict) (s : string) :
  true_member (PDict d) s = Ok (true_at d s).
Proof.
  unfold true_member, true_at, py_contains, py_getitem, dict_getitem, mem.
  cbn [bind]. now destruct (lookup s d).
Qed.

(** The row of a plain field, and no custom type. *)
Lemma table_row_plain type_map field_name field_metadata :
  plain_field field_metadata = true ->
  exists text, table_row type_map (field_name, field_metadata) = Ok (text, []).
Proof.
  destruct field_metadata as [| | | | | |d]; try discriminate.
  unfold plain_field, mem. intros H.
  repeat (apply andb_true_iff in H; destruct H as [H ?]).
  unfold table_row. rewrite true_member_dict. cbn [bind].
  unfold field_type_of, value_cell, description_cell, value_name_of,
    py_contains, py_getitem, dict_getitem, key_in, mem.
  destruct (lookup "type" d) as [[| | | | t | |]|]; try discriminate.
  destruct (lookup "value_name" d); [discriminate |].
  cbn [as_str bind truthy andb]. rewrite andb_false_r.
  destruct (lookup "value" d) as [[| | | | v | |]|]; try discriminate;
    destruct (lookup "description" d) as [[| | | | ds | |]|];
    try discriminate; cbn [as_str bind fst snd]; eexists; reflexivity.
Qed.

Lemma table_rows_plain type_map (fields : dict) :
  forallb (fun kv => plain_field (snd kv)) fields = true ->
  forall text used,
    exists text', table_rows type_map fields (text, used) = Ok (text', used).
Proof.
  induction fields as [|[k md] fields IH]; intros H text used.
  - now exists text.
  - simpl in H. apply andb_true_iff in H. destruct H as [Hmd H].
    destruct (table_row_plain type_map k md Hmd) as [row Hrow].
    cbn [table_rows]. rewrite Hrow. cbn [bind fst snd].
    rewrite app_nil_r. apply (IH H).
Qed.

(** Plain tables are rendered. *)
Lemma render_plain_table_rows :
  forall (set_order : list string -> list string) (table_name : string)
         (fields : dict) (type_map : pyval),
    (forall l x, In x (set_order l) -> In x l) ->
    forallb (fun kv => plain_field (snd kv)) fields = true ->
    exists text,
      get_table_and_types_section set_order table_name (PDict fields) type_map
      = Ok text.
Proof.
  intros set_order tn fields type_map Horder Hplain.
  unfold get_table_and_types_section.
  destruct (table_rows_plain type_map fields Hplain (table_head tn) [])
    as [text Htext].
  rewrite Htext. cbn [bind fst snd].
  destruct (truthy type_map); [| eauto].
  destruct (set_order []) as [|x l] eqn:E; [simpl; eauto |].
  exfalso. apply (Horder [] x). rewrite E. now left.
Qed.

(** X19.  A table all of whose fields are plain -- a mapping with a string
    as its type, no [value_name], and strings under [value] and
    [description] if present -- is rendered without an exception, whatever
    the type map. *)
Theorem render_plain_table :
  forall (set_order : list string -> list string) (table_name : string)
         (fields : dict) (type_map : pyval),
    (forall l x, In x (set_order l) -> In x l) ->
    forallb (fun kv => plain_field (snd kv)) fields = true ->
    exists text,
      get_table_and_types_section set_order table_name (PDict fields) type_map
      = Ok text.
Proof.
  exact render_plain_table_rows.
Qed.

Lemma render_plain_table_witness :
  (forall l x, In x ((fun l : list string => l) l) -> In x l)
  /\ forallb (fun kv => plain_field (snd kv))
       [("id", descr_type "Number");
        ("name", PDict [("type", PStr "String"); ("optional", PBool true);
                        ("description", PStr "The name.")])] = true
  /\ exists text,
       get_table_and_types_section (fun l => l) "Items"
         (PDict [("id", descr_type "Number");
                 ("name", PDict [("type", PStr "String");
                                 ("optional", PBool true);
                                 ("description", PStr "The name.")])])
         PNone
       = Ok text.
Proof.
  split; [intros l x H; exact H |]. split; [reflexivity |].
  apply (render_plain_table (fun l => l) "Items"
           [("id", descr_type "Number");
            ("name", PDict [("type", PStr "String"); ("optional", PBool true);
                            ("description", PStr "The name.")])] PNone);
    [intros l x H; exact H | reflexivity].
Defined.

Lemma table_rows_In type_map (fields : dict) :
  forall st st' field,
    table_rows type_map fields st = Ok st' ->
    In field fields ->
    exists row, table_row type_map field = Ok row.
Proof.
  induction fields as [|f fields IH]; intros st st' field H Hin;
    [destruct Hin |].
  cbn [table_rows] in H. bind_inv H row Hrow.
  destruct Hin as [E|Hin]; [subst f; eauto |].
  now apply (IH _ st' field H).
Qed.

(** X20.  Without a type map ([None]) a table is not rendered when one of
    its fields has the type ['String'], a [value_name] that is true and no
    [value]: line 267 searches the missing type map. *)
Theorem render_value_name_needs_type_map :
  forall (set_order : list string -> list string) (table_name : string)
         (fields : dict) (field_name : string) (d : dict)
         (value_name : pyval) (text : string),
    In (field_name, PDict d) fields ->
    lookup "type" d = Some (PStr "String") ->
    lookup "value_name" d = Some value_name ->
    truthy value_name = true ->
    lookup "value" d = None ->
    get_table_and_types_section set_order table_name (PDict fields) PNone
    <> Ok text.
Proof.
  intros set_order tn fields k d vn text Hin Ht Hvn Htrue Hv H.
  unfold get_table_and_types_section in H. bind_inv H st Hst.
  destruct (table_rows_In _ _ _ _ _ Hst Hin) as [row Hrow].
  unfold table_row in Hrow. rewrite true_member_dict in Hrow.
  cbn [bind] in Hrow. unfold field_type_of in Hrow. rewrite Ht in Hrow.
  cbn [as_str bind] in Hrow.
  unfold value_cell, key_in, mem, value_name_of in Hrow.
  rewrite Hv, Hvn, Htrue in Hrow. cbn [String.eqb Ascii.eqb Bool.eqb andb] in Hrow.
  destruct vn as [| | | | s | |]; try discriminate Hrow.
Qed.

Lemma render_value_name_needs_type_map_witness :
  get_table_and_types_section (fun l => l) "."
    (PDict [("state", PDict [("type", PStr "String");
                             ("value_name", PStr "State");
                             ("description", PStr "The state.")])])
    PNone
  <> Ok "".
Proof.
  apply (render_value_name_needs_type_map (fun l => l) "."
           [("state", PDict [("type", PStr "String");
                             ("value_name", PStr "State");
                             ("description", PStr "The state.")])]
           "state"
           [("type", PStr "String"); ("value_name", PStr "State");
            ("description", PStr "The state.")]
           (PStr "State") "");
    [now left | reflexivity | reflexivity | reflexivity | reflexivity].
Defined.

(** The descriptor of every key that is visited without an exception is
    plain. *)
Lemma visit_key_descr_plain rec tn cfm st kv st' :
  visit_key rec tn cfm st kv = Ok st' ->
  plain_field (field_descriptor cfm tn kv) = true.
Proof.
  destruct kv as [k v]. destruct st as [ctf ct].
  unfold visit_key, field_descriptor. cbn [fst snd].
  destruct v as [| b | z | m e | s | l | d]; try reflexivity.
  destruct (makes_child (PList l)) eqn:Hmk; [| reflexivity].
  intros H. bind_inv H name Hname.
  destruct name as [| | | | n | |]; try discriminate H.
  unfold child_name_of. cbn [fst snd]. now rewrite Hmk, Hname.
Qed.

(** X21.  The table [get_schema] infers for an object is one that
    [get_table_and_types_section] renders without an exception, whatever
    the type map. *)
Theorem render_inferred_table :
  forall (set_order : list string -> list string) (field_map : pyval)
         (d : dict) (table_name : string) (schema : dict) (type_map : pyval),
    (forall l x, In x (set_order l) -> In x l) ->
    get_schema field_map (PDict d) table_name = Ok schema ->
    names_child field_map table_name table_name (PDict d) = false ->
    distinct (keys d) = true ->
    exists table text,
      lookup table_name schema = Some table
      /\ get_table_and_types_section set_order table_name table type_map
         = Ok text.
Proof.
  intros set_order fm d tn schema type_map Horder Hs Hn Hd.
  pose proof Hs as H. rewrite get_schema_dict in H.
  bind_inv H cfm Hcfm. bind_inv H st Hst.
  pose proof (get_schema_own_fields _ _ _ _ _ Hs Hcfm Hn Hd) as Htable.
  assert (Hplain : forallb (fun kv => plain_field (snd kv))
                     (map (fun kv => (fst kv, field_descriptor cfm tn kv)) d)
                   = true).
  { apply forallb_forall. intros [k x] Hin. apply in_map_iff in Hin.
    destruct Hin as (kv & E & Hin). inversion E. subst k x. cbn [snd].
    destruct (visit_keys_In _ _ _ _ _ _ _ Hst Hin) as (st1 & st2 & Hk).
    now apply (visit_key_descr_plain _ _ _ _ _ _ Hk). }
  destruct (render_plain_table_rows set_order tn _ type_map Horder Hplain)
    as [text Htext].
  eauto.
Qed.


(** X22.  A field whose metadata is a bare string is searched like a
    mapping: when the string contains the word [optional] or the word
    [description], the table is not rendered (the string is then
    subscripted with that word). *)
Theorem render_bare_string :
  forall (set_order : list string -> list string) (table_name : string)
         (fields : dict) (type_map : pyval) (field_name s text : string),
    In (field_name, PStr s) fields ->
    is_substring "optional" s || is_substring "description" s = true ->
    get_table_and_types_section set_order table_name (PDict fields) type_map
    <> Ok text.
Proof.
  intros set_order tn fields type_map k s text Hin Hword H.
  unfold get_table_and_types_section in H. bind_inv H st Hst.
  destruct (table_rows_In _ _ _ _ _ Hst Hin) as [row Hrow].
  unfold table_row, true_member, py_contains in Hrow. cbn [bind] in Hrow.
  destruct (is_substring "optional" s); [discriminate Hrow |].
  simpl in Hword. cbn [bind field_type_of as_str] in Hrow.
  unfold value_cell, description_cell, py_contains in Hrow.
  cbn [key_in String.eqb Ascii.eqb Bool.eqb andb bind] in Hrow.
  rewrite Hword in Hrow. discriminate Hrow.
Qed.

Lemma render_bare_string_witness :
  get_table_and_types_section (fun l => l) "Items"
    (PDict [("id", descr_type "Number");
            ("note", PStr "An optional note.")]) PNone
  <> Ok "".
Proof.
  apply (render_bare_string (fun l => l) "Items"
           [("id", descr_type "Number"); ("note", PStr "An optional note.")]
           PNone "note" "An optional note." "");
    [right; now left | reflexivity].
Defined.
End Unicode.

(** * The properties at the examples *)

Lemma get_schema_items_example_witness :
  truthy (PDict [("Other", PDict [])]) = true
  /\ py_get (PDict [("Other", PDict [])]) "." = Ok PNone
  /\ get_schema no_case_mapping (PDict [("Other", PDict [])]) items_example "."
     = Ok items_schema.
Proof.
  split; [reflexivity | split; [reflexivity |]].
  apply (get_schema_items_example no_case_mapping (PDict [("Other", PDict [])]));
    reflexivity.
Defined.

Lemma optional_iff_absent_witness :
  exists table,
    lookup "Items" items_schema = Some (PDict table)
    /\ (forall k,
           mem k table
           = existsb (key_in k)
               [PDict [("id", PInt 1); ("name", PStr "x")];
                PDict [("id", PInt 2)]])
    /\ (forall k descr,
           lookup k table = Some descr ->
           (has_optional descr = true
            <-> exists e,
                  In e [PDict [("id", PInt 1); ("name", PStr "x")];
                        PDict [("id", PInt 2)]]
                  /\ key_in k e = false)).
Proof.
  apply (optional_iff_absent no_case_mapping (PDict [("Other", PDict [])]) "." [] []
           "items" _ "Items" items_schema); reflexivity.
Defined.

Lemma get_schema_without_field_map_witness :
  truthy PNone = false
  /\ (has_object_array
        (PDict [("meta", PDict [("rows", PList [PDict [("id", PInt 1)]])])])
      = true ->
      get_schema no_case_mapping PNone
        (PDict [("meta", PDict [("rows", PList [PDict [("id", PInt 1)]])])])
        "." = Raise UnboundLocalError)
  /\ (has_object_array
        (PDict [("meta", PDict [("rows", PList [PDict [("id", PInt 1)]])])])
      = false ->
      exists tables,
        get_schema no_case_mapping PNone
          (PDict [("meta", PDict [("rows", PList [PDict [("id", PInt 1)]])])])
          "." = Ok tables).
Proof.
  split; [reflexivity |].
  apply (get_schema_without_field_map no_case_mapping PNone
           [("meta", PDict [("rows", PList [PDict [("id", PInt 1)]])])] ".").
  reflexivity.
Defined.

Lemma get_schema_table_first_witness :
  exists fields rest,
    items_schema = (".", PDict fields) :: rest
    /\ Forall (fun kv => is_dict (snd kv) = true) rest.
Proof.
  apply (get_schema_table_first no_case_mapping (PDict [("Other", PDict [])]) items_example
           "." items_schema).
  reflexivity.
Defined.

Lemma get_schema_fields_witness :
  lookup "."
    [(".", PDict [("n", descr_type "Number"); ("s", descr_type "String");
                  ("z", descr_type "Null");
                  ("xs", descr_type_value "Array(Unknown)" "Array of Unknown");
                  ("o", descr_type_value "Object" "`O`")]);
     ("O", PDict [("O", PDict [("b", descr_type "Number")])])]
  = Some (PDict
            (map (fun kv => (fst kv, field_descriptor no_case_mapping None "." kv))
               [("n", PFloat 3 (-1)); ("s", PStr "x"); ("z", PNone);
                ("xs", PList [PInt 1]); ("o", PDict [("b", PBool true)])])).
Proof.
  apply (get_schema_fields no_case_mapping PNone
           [("n", PFloat 3 (-1)); ("s", PStr "x"); ("z", PNone);
            ("xs", PList [PInt 1]); ("o", PDict [("b", PBool true)])]
           "." None); reflexivity.
Defined.

Lemma get_schema_array_elements_witness :
  Forall (fun e => is_dict e = true)
    [PDict [("id", PInt 1); ("name", PStr "x")]; PDict [("id", PInt 2)]].
Proof.
  apply (get_schema_array_elements no_case_mapping (PDict [("Other", PDict [])])
           [("items",
             PList [PDict [("id", PInt 1); ("name", PStr "x")];
                    PDict [("id", PInt 2)]])]
           "." items_schema "items");
    [reflexivity | now left | reflexivity].
Defined.

Lemma get_schema_exceptions_witness :
  UnboundLocalError = UnboundLocalError
  \/ UnboundLocalError = AttributeError \/ UnboundLocalError = TypeError.
Proof.
  apply (get_schema_exceptions no_case_mapping PNone
           (PDict [("items", PList [PDict [("id", PInt 1)]])]) ".").
  reflexivity.
Defined.

Lemma get_schema_shared_table_witness :
  exists table,
    lookup "Line"
      [(".", PDict [("production",
                     descr_type_value "Array(Object)" "Array of `Line`");
                    ("storage",
                     descr_type_value "Array(Object)" "Array of `Line`")]);
       ("Line",
        PDict [("type", descr_type "String");
               ("wNow", PDict [("type", PStr "Number");
                               ("optional", PBool true)]);
               ("state", PDict [("type", PStr "String");
                                ("optional", PBool true)])])]
    = Some (PDict table)
    /\ (forall k,
           mem k table
           = existsb (key_in k)
               [PDict [("type", PStr "eim"); ("wNow", PInt 0)];
                PDict [("type", PStr "acb")]]
             || existsb (key_in k)
                  [PDict [("type", PStr "acb"); ("state", PStr "idle")]])
    /\ (forall k descr,
           lookup k table = Some descr ->
           has_optional descr
           = any_missing k
               [PDict [("type", PStr "acb"); ("state", PStr "idle")]]
             || (existsb truthy
                   [PDict [("type", PStr "eim"); ("wNow", PInt 0)];
                    PDict [("type", PStr "acb")]]
                 && negb (existsb (key_in k)
                            [PDict [("type", PStr "eim"); ("wNow", PInt 0)];
                             PDict [("type", PStr "acb")]]))).
Proof.
  apply (get_schema_shared_table no_case_mapping
           (PDict [(".", PDict [("production",
                                 PDict [("value_name", PStr "Line")]);
                                ("storage",
                                 PDict [("value_name", PStr "Line")])])])
           "." [] [] [] "production" "storage"
           [PDict [("type", PStr "eim"); ("wNow", PInt 0)];
            PDict [("type", PStr "acb")]]
           [PDict [("type", PStr "acb"); ("state", PStr "idle")]]
           "Line"); reflexivity.
Defined.

Lemma get_schema_ignores_field_map_witness :
  get_schema no_case_mapping
    (PDict [(".", PDict [("o", PDict [("value_name", PStr "Other")])])])
    (PDict [("n", PInt 1); ("o", PDict [("xs", PList [PStr "a"])])]) "."
  = get_schema no_case_mapping PNone
      (PDict [("n", PInt 1); ("o", PDict [("xs", PList [PStr "a"])])]) ".".
Proof.
  apply (get_schema_ignores_field_map no_case_mapping
           (PDict [(".", PDict [("o", PDict [("value_name", PStr "Other")])])])
           [("n", PInt 1); ("o", PDict [("xs", PList [PStr "a"])])] ".");
    [now left | reflexivity].
Defined.

Lemma default_child_name_case_witness :
  is_ascii "wNow" = true
  /\ is_ascii "WNOW" = true
  /\ (default_child_name no_case_mapping "Production" "wNow"
      = default_child_name no_case_mapping "Production" "WNOW"
      <-> lower "wNow" = lower "WNOW").
Proof.
  split; [reflexivity | split; [reflexivity |]].
  apply (default_child_name_case no_case_mapping "Production" "wNow" "WNOW");
    reflexivity.
Defined.


Lemma render_inferred_table_witness :
  exists table text,
    lookup "." items_schema = Some table
    /\ get_table_and_types_section (fun l => l) "." table PNone = Ok text.
Proof.
  apply (render_inferred_table no_case_mapping (fun l => l) (PDict [("Other", PDict [])])
           [("items",
             PList [PDict [("id", PInt 1); ("name", PStr "x")];
                    PDict [("id", PInt 2)]])]
           "." items_schema PNone);
    [intros l x H; exact H | reflexivity | reflexivity | reflexivity].
Defined.
